(** * es6-dom-sandbox: the [DOM] collection class, embedded and verified

    The development follows [DOM.js]: a jQuery-like collection class
    [DOM] (an [Array] subclass holding node references), the factory [$],
    and the module-level [privateData] side table.

    The browser is not part of the repository.  The parts of it the class
    calls are modelled here after the DOM and ECMAScript standards: the
    node tree ([parentNode] / [childNodes]), attributes, class lists and
    a [WeakMap].  The selector engine (for any selector other than the
    universal one), attribute name handling, inline style, event
    listeners, the HTML parser, [cloneNode] and [appendChild] are
    parameters of the development, gathered in the class [Platform]. *)

From Stdlib Require Import ZArith Lia Ascii String DecimalString.
From stdpp Require Import base decidable countable list option gmap.

Local Open Scope Z_scope.

(** ** Strings

    A JavaScript string is a sequence of UTF-16 code units. *)

Abbreviation jsstring := (list N).

(** A literal: the code units of an ASCII string. *)
Definition js (s : string) : jsstring :=
  List.map N_of_ascii (list_ascii_of_string s).

(** ECMAScript [WhiteSpace] and [LineTerminator] code points: the set
    [String.prototype.trim] strips and the class [\s] matches. *)
Definition isWhiteSpace (c : N) : bool :=
  ((9 <=? c) && (c <=? 13) || (c =? 32) || (c =? 160) || (c =? 5760)
   || (8192 <=? c) && (c <=? 8202) || (c =? 8232) || (c =? 8233)
   || (c =? 8239) || (c =? 8287) || (c =? 12288) || (c =? 65279))%N.

Fixpoint trimStart (s : jsstring) : jsstring :=
  match s with
  | c :: r => if isWhiteSpace c then trimStart r else s
  | [] => []
  end.

(** [str.trim()] *)
Definition trim (s : jsstring) : jsstring :=
  rev (trimStart (rev (trimStart s))).

(** [str.split(/\s+/)]: the pieces between maximal runs of white space.
    [sep] tells that the previous code unit belonged to a separator,
    [cur] is the piece being read, reversed.  The empty string gives the
    one-element array holding the empty string. *)
Fixpoint split_go (sep : bool) (cur : jsstring) (s : jsstring)
  : list jsstring :=
  match s with
  | [] => [rev cur]
  | c :: r =>
      if isWhiteSpace c
      then (if sep then split_go true cur r
            else rev cur :: split_go true [] r)
      else split_go false (c :: cur) r
  end.

Definition split_spaces (s : jsstring) : list jsstring :=
  split_go false [] s.

(** [const parseSpaces = str => str.trim().split(/\s+/);] *)
Definition parseSpaces (str : jsstring) : list jsstring :=
  split_spaces (trim str).

(** ** Node references *)

(** The interface a node object implements; it is fixed when the node is
    created and decides [instanceof] and [nodeType]. *)
Inductive interface :=
  | Element | Text | Comment | HTMLDocument | XMLDocument
  | DocumentType | DocumentFragment.

Global Instance interface_eq_dec : EqDecision interface.
Proof. solve_decision. Defined.

Definition interface_code (i : interface) : nat :=
  match i with
  | Element => 0 | Text => 1 | Comment => 2 | HTMLDocument => 3
  | XMLDocument => 4 | DocumentType => 5 | DocumentFragment => 6
  end%nat.

Definition interface_of_code (n : nat) : interface :=
  match n with
  | 0 => Element | 1 => Text | 2 => Comment | 3 => HTMLDocument
  | 4 => XMLDocument | 5 => DocumentType | _ => DocumentFragment
  end%nat.

Global Instance interface_countable : Countable interface.
Proof. by apply (inj_countable' interface_code interface_of_code); intros []. Defined.

(** A reference to a node object.  Two references are the same object
    exactly when they are equal. *)
Record handle := Handle { hid : positive; hiface : interface }.

Global Instance handle_eq_dec : EqDecision handle.
Proof. solve_decision. Defined.

Global Instance handle_countable : Countable handle.
Proof.
  by apply (inj_countable' (λ h, (hid h, hiface h))
                           (λ p, Handle p.1 p.2)); intros [].
Defined.

(** [node.nodeType] *)
Definition nodeType (h : handle) : Z :=
  match hiface h with
  | Element => 1
  | Text => 3
  | Comment => 8
  | HTMLDocument | XMLDocument => 9
  | DocumentType => 10
  | DocumentFragment => 11
  end.

(** ** Values and collections *)

(** JavaScript values, as far as the class meets them.  [VRecord] is a
    reference to a prototype-less object of the private data store,
    [VObject] an object literal given by its own enumerable properties in
    [Object.keys] order, [VFun] a function object.

    [DOM] is the collection: the array part [items] and the two
    properties [init] assigns. *)
#[warnings="-register-all"]
Inductive jsval :=
  | VUndefined
  | VNull
  | VBool (b : bool)
  | VNum (n : Z)
  | VStr (s : jsstring)
  | VFun (f : positive)
  | VNode (h : handle)
  | VRecord (r : positive)
  | VObject (props : list (jsstring * jsval))
  | VArray (elts : list jsval)
  | VDOM (d : DOM)
with DOM :=
  | mkDOM (items : list handle) (selector : jsval) (parent : option DOM).

Definition items (d : DOM) : list handle :=
  match d with mkDOM l _ _ => l end.
Definition selector (d : DOM) : jsval :=
  match d with mkDOM _ s _ => s end.
Definition parent (d : DOM) : option DOM :=
  match d with mkDOM _ _ p => p end.

(** [this.length] *)
Definition length_of (d : DOM) : Z := Z.of_nat (length (items d)).

(** [ToBoolean] *)
Definition ToBoolean (v : jsval) : bool :=
  match v with
  | VUndefined | VNull => false
  | VBool b => b
  | VNum n => negb (n =? 0)
  | VStr s => negb (bool_decide (s = []))
  | _ => true
  end.

Definition instanceof_DOM (v : jsval) : bool :=
  match v with VDOM _ => true | _ => false end.

Definition instanceof_Node (v : jsval) : bool :=
  match v with VNode _ => true | _ => false end.

Definition instanceof_HTMLDocument (v : jsval) : bool :=
  match v with
  | VNode h => bool_decide (hiface h = HTMLDocument)
  | _ => false
  end.

Definition instanceof_HTMLElement (v : jsval) : bool :=
  match v with
  | VNode h => bool_decide (hiface h = Element)
  | _ => false
  end.

(** [element.nodeType === n]; a value that is no node has no such
    property. *)
Definition nodeType_is (v : jsval) (n : Z) : bool :=
  match v with
  | VNode h => nodeType h =? n
  | _ => false
  end.

(** [isElement] *)
Definition isElement (element : jsval) : bool :=
  instanceof_HTMLDocument element
  || ((instanceof_Node element || instanceof_HTMLElement element)
      && (nodeType_is element 3 || nodeType_is element 1)).

(** [this.push(element)] *)
Definition push (h : handle) (this : DOM) : DOM :=
  mkDOM (items this ++ [h]) (selector this) (parent this).

(** [add] on a member of another collection: a node reference is neither
    an array nor a collection. *)
Definition add_node (h : handle) (this : DOM) : DOM :=
  if isElement (VNode h) then push h this else this.

(** [DOM.prototype.add]; the updated receiver is the result. *)
Fixpoint add (element : jsval) (this : DOM) {struct element} : DOM :=
  if isElement element then
    match element with
    | VNode h => push h this
    | _ => this
    end
  else
    match element with
    | VArray elts =>
        (fix forEach (l : list jsval) (this : DOM) : DOM :=
           match l with
           | [] => this
           | _element :: r => forEach r (add _element this)
           end) elts this
    | VDOM d => foldl (λ this _element, add_node _element this) this (items d)
    | _ => this
    end.

(** [this[index]]: [undefined] ([None]) outside the array. *)
Definition at_index (index : Z) (this : DOM) : option handle :=
  if index <? 0 then None else items this !! Z.to_nat index.

(** [DOM.prototype.get] *)
Definition get (index : Z) (this : DOM) : option handle :=
  if index >? length_of this then None else at_index index this.

(** ** The browser

    What the class can observe of the document: the node tree, the
    attributes and class lists of elements, and the object heap behind
    the private data store. *)
Record world := World {
  (** [node.parentNode]; no entry for a node without parent *)
  parentNode : gmap handle handle;
  (** [node.childNodes], in tree order; no entry for a childless node *)
  childNodes : gmap handle (list handle);
  (** the attribute list of an element, by stored name *)
  attributes : gmap handle (gmap jsstring jsstring);
  (** [element.classList], in token order *)
  classList : gmap handle (list jsstring);
  (** [const privateData = new WeakMap()]: node to record object *)
  privateData : gmap handle positive;
  (** the prototype-less record objects, by reference *)
  records : gmap positive (gmap jsstring jsval);
  (** the next unused record reference *)
  next_record : positive;
}.

Definition set_tree (pn : gmap handle handle)
    (cn : gmap handle (list handle)) (w : world) : world :=
  World pn cn (attributes w) (classList w)
        (privateData w) (records w) (next_record w).

Definition set_attributes (a : gmap handle (gmap jsstring jsstring))
    (w : world) : world :=
  World (parentNode w) (childNodes w) a (classList w)
        (privateData w) (records w) (next_record w).

Definition set_classList (c : gmap handle (list jsstring))
    (w : world) : world :=
  World (parentNode w) (childNodes w) (attributes w) c
        (privateData w) (records w) (next_record w).

Definition set_privateData (p : gmap handle positive) (w : world) : world :=
  World (parentNode w) (childNodes w) (attributes w) (classList w)
        p (records w) (next_record w).

Definition set_records (r : gmap positive (gmap jsstring jsval))
    (n : positive) (w : world) : world :=
  World (parentNode w) (childNodes w) (attributes w) (classList w)
        (privateData w) r n.

(** Exceptions a call can end with. *)
Inductive exn :=
  | TypeError | SyntaxError | InvalidCharacterError
  | NotFoundError | HierarchyRequestError.

(** The result of running a method: a value and the world after it, an
    exception and the world at the throw, or recursion cut short. *)
Inductive outcome (A : Type) :=
  | Ok (a : A) (w : world)
  | Throw (e : exn) (w : world)
  | OutOfFuel.
Arguments Ok {A} a w.
Arguments Throw {A} e w.
Arguments OutOfFuel {A}.

Definition M (A : Type) : Type := world → outcome A.

Definition ret {A} (a : A) : M A := λ w, Ok a w.

Definition bind {A B} (m : M A) (k : A → M B) : M B :=
  λ w, match m w with
       | Ok a w' => k a w'
       | Throw e w' => Throw e w'
       | OutOfFuel => OutOfFuel
       end.

Definition throw {A} (e : exn) : M A := λ w, Throw e w.

Definition read {A} (f : world → A) : M A := λ w, Ok (f w) w.

Definition modify (f : world → world) : M unit := λ w, Ok tt (f w).

Notation "'let*' x ':=' m 'in' k" := (bind m (λ x, k))
  (at level 10, x pattern, m at level 100, k at level 200).
Notation "m '>>' k" := (bind m (λ _, k))
  (at level 100, k at level 200, right associativity).

(** [array.forEach((element, index) => ...)] with a variable [s] the
    callback assigns to. *)
Fixpoint forEach {A St} (callback : A → nat → St → M St)
    (l : list A) (index : nat) (s : St) : M St :=
  match l with
  | [] => ret s
  | element :: r =>
      let* s' := callback element index s in
      forEach callback r (S index) s'
  end.

(** *** The node tree *)

Definition children_of (w : world) (h : handle) : list handle :=
  default [] (childNodes w !! h).

(** [node.parentElement]: the parent when it is an element. *)
Definition parentElement (w : world) (h : handle) : option handle :=
  match parentNode w !! h with
  | Some p => if decide (hiface p = Element) then Some p else None
  | None => None
  end.

(** The DOM's "remove a node from its parent". *)
Definition unlink (child p : handle) (w : world) : world :=
  set_tree (delete child (parentNode w))
           (<[p := filter (λ c, c ≠ child) (children_of w p)]> (childNodes w))
           w.

(** [p.removeChild(child)] *)
Definition removeChild (p child : handle) : M unit :=
  λ w, if decide (parentNode w !! child = Some p)
       then Ok tt (unlink child p w)
       else Throw NotFoundError w.

(** Interfaces with the [ChildNode] mixin, which carries [remove]. *)
Definition isChildNode (h : handle) : bool :=
  match hiface h with
  | Element | Text | Comment | DocumentType => true
  | _ => false
  end.

(** [node.remove()] *)
Definition ChildNode_remove (h : handle) : M unit :=
  λ w, if isChildNode h
       then match parentNode w !! h with
            | Some p => Ok tt (unlink h p w)
            | None => Ok tt w
            end
       else Throw TypeError w.

(** The descendants of a node in tree order.  [fuel] bounds the depth
    of the walk; [None] when it is used up. *)
Fixpoint descendants (fuel : nat) (w : world) (h : handle)
  : option (list handle) :=
  match fuel with
  | O => None
  | S fuel' =>
      @List.concat handle
        <$> mapM (λ k, cons k <$> descendants fuel' w k) (children_of w h)
  end.

(** Interfaces with the [ParentNode] mixin, which carries
    [querySelectorAll]. *)
Definition isParentNode (h : handle) : bool :=
  match hiface h with
  | Element | HTMLDocument | XMLDocument | DocumentFragment => true
  | _ => false
  end.

(** *** Class lists *)

(** DOM "ASCII whitespace" *)
Definition isAsciiWhitespace (c : N) : bool :=
  ((c =? 9) || (c =? 10) || (c =? 12) || (c =? 13) || (c =? 32))%N.

(** The checks [DOMTokenList.add] and [remove] run on a token. *)
Definition check_token (token : jsstring) : M unit :=
  if bool_decide (token = []) then throw SyntaxError
  else if existsb isAsciiWhitespace token then throw InvalidCharacterError
  else ret tt.

Definition classes_of (w : world) (h : handle) : list jsstring :=
  default [] (classList w !! h).

(** [element.classList.add(token)]; only elements have a class list. *)
Definition classList_add (element : handle) (token : jsstring) : M unit :=
  if decide (hiface element = Element) then
    check_token token >>
    modify (λ w,
      if bool_decide (token ∈ classes_of w element) then w
      else set_classList
             (<[element := classes_of w element ++ [token]]> (classList w)) w)
  else throw TypeError.

(** [element.classList.remove(token)] *)
Definition classList_remove (element : handle) (token : jsstring) : M unit :=
  if decide (hiface element = Element) then
    check_token token >>
    modify (λ w,
      set_classList
        (<[element := filter (λ t, t ≠ token) (classes_of w element)]>
           (classList w)) w)
  else throw TypeError.

(** *** The parts left to the platform *)

(** A platform call ends normally or with an exception. *)
Inductive completion (A : Type) :=
  | Normal (a : A) (w : world)
  | Abrupt (e : exn) (w : world).
Arguments Normal {A} a w.
Arguments Abrupt {A} e w.

Definition lift {A} (f : world → completion A) : M A :=
  λ w, match f w with
       | Normal a w' => Ok a w'
       | Abrupt e w' => Throw e w'
       end.

Class Platform := {
  (** the selector engine: [None] for a selector that does not parse,
      else whether a node matches, given the scoping node *)
  selector_engine : jsstring → option (world → handle → handle → bool);
  (** the name an element stores an attribute under *)
  attribute_name : handle → jsstring → jsstring;
  (** whether [setAttribute] accepts the name *)
  valid_attribute_name : jsstring → bool;
  (** [element.style[rule] = value] *)
  style_set : handle → jsval → jsval → world → completion unit;
  (** [node.addEventListener(type, callback, false)] *)
  addEventListener : handle → jsstring → jsval → world → completion unit;
  (** [node.removeEventListener(type, callback, false)] *)
  removeEventListener : handle → jsstring → jsval → world → completion unit;
  (** [Array.from(new DOMParser().parseFromString(html, 'text/html')
      .body.childNodes)] *)
  parse_body_children : jsstring → world → completion (list handle);
  (** [node.cloneNode(true)] *)
  cloneNode : handle → world → completion handle;
  (** [node.appendChild(child)] *)
  appendChild : handle → handle → world → completion unit;
}.

Section DOM_class.
Context `{Platform}.

(** *** Attributes and selectors *)

(** [element.getAttribute(key)]: [null] when the attribute is absent.
    Only elements carry the method. *)
Definition getAttribute (element : handle) (key : jsstring) : M jsval :=
  if decide (hiface element = Element) then
    read (λ w,
      match attributes w !! element ≫= (.!! attribute_name element key) with
      | Some s => VStr s
      | None => VNull
      end)
  else throw TypeError.

(** [element.setAttribute(key, value)] *)
Definition setAttribute (element : handle) (key value : jsstring) : M unit :=
  if decide (hiface element = Element) then
    if valid_attribute_name key then
      modify (λ w,
        set_attributes
          (<[element := <[attribute_name element key := value]>
                          (default ∅ (attributes w !! element))]>
             (attributes w)) w)
    else throw InvalidCharacterError
  else throw TypeError.

(** How a parsed selector matches; the universal selector matches every
    element. *)
Definition compile_selector (selector : jsstring)
  : option (world → handle → handle → bool) :=
  if decide (selector = js "*") then Some (λ _ _ _, true)
  else selector_engine selector.

(** [Array.from(element.querySelectorAll(selector))]: the descendant
    elements that match, in tree order. *)
Definition querySelectorAll (fuel : nat) (element : handle)
    (selector : jsstring) : M (list handle) :=
  if isParentNode element then
    match compile_selector selector with
    | Some matches =>
        λ w, match descendants fuel w element with
             | Some l =>
                 Ok (filter (λ x, bool_decide (hiface x = Element)
                                  && matches w element x) l) w
             | None => OutOfFuel
             end
    | None => throw SyntaxError
    end
  else throw TypeError.

(** *** The private data store *)

(** [privateData.set(element, Object.create(null))] *)
Definition privateData_init (element : handle) (w : world) : world :=
  let r := next_record w in
  set_privateData (<[element := r]> (privateData w))
    (set_records (<[r := ∅]> (records w)) (Pos.succ r) w).

(** [privateData.delete(element)] *)
Definition privateData_delete (element : handle) (w : world) : world :=
  set_privateData (delete element (privateData w)) w.

(** [data[key]] on a record object *)
Definition record_get (r : positive) (key : jsstring) (w : world) : jsval :=
  default VUndefined (records w !! r ≫= (.!! key)).

(** [data[key] = value] on a record object *)
Definition record_set (r : positive) (key : jsstring) (value : jsval)
    (w : world) : world :=
  set_records (<[r := <[key := value]> (default ∅ (records w !! r))]>
                 (records w)) (next_record w) w.

(** *** Construction *)

(** The global [document] and [$document = $(document)], made while
    [$document] is still undefined: [init] leaves [parent] undefined and
    adds the document. *)
Definition document : handle := Handle 1 HTMLDocument.

(** [selector || ''] *)
Definition or_empty (selector : jsval) : jsval :=
  if ToBoolean selector then selector else VStr [].

(** [init] once [this.parent] is known, for a selector that is no
    string or without parent: [this.add(selector)]. *)
Definition init_add (selector : jsval) (parent : option DOM) : DOM :=
  add selector (mkDOM [] (or_empty selector) parent).

Definition dollar_document : DOM := init_add (VNode document) None.

(** [$()]: [new DOM(undefined, $document)] *)
Definition dollar_nothing : DOM := init_add VUndefined (Some dollar_document).

(** [$(element)] for a node reference *)
Definition dollar_node (element : handle) : DOM :=
  init_add (VNode element) (Some dollar_document).

(** [$(children)] for an array of node references *)
Definition dollar_array (children : list handle) : DOM :=
  init_add (VArray (VNode <$> children)) (Some dollar_document).

(** [DOM.prototype.each], for a [callback] that is a function (every
    call in the class passes an arrow function); [s] stands for the
    variables of the enclosing function the callback assigns to.  The
    method itself returns [this]. *)
Definition each {St} (callback : handle → nat → St → M St)
    (this : DOM) (s : St) : M St :=
  forEach callback (items this) 0%nat s.

(** [DOM.prototype.find] *)
Definition find (fuel : nat) (selector : jsstring) (this : DOM) : M DOM :=
  let collection := dollar_nothing in
  each (λ element _ collection,
          let* elements := querySelectorAll fuel element selector in
          ret (add (VArray (VNode <$> elements)) collection))
       this collection.

(** [DOM.prototype.init] after [this.parent] has been assigned. *)
Definition init_with (fuel : nat) (selector : jsval) (parent : option DOM)
  : M DOM :=
  match selector, parent with
  | VStr s, Some p =>
      let this := mkDOM [] (or_empty selector) parent in
      let* found := find fuel s p in
      each (λ element _ this, ret (add (VNode element) this)) found this
  | _, _ => ret (init_add selector parent)
  end.

(** [$(parent)] as [init] calls it: one argument, so the parent
    defaults to [$document]. *)
Definition dollar_parent (fuel : nat) (parent : jsval) : M DOM :=
  match parent with
  | VDOM d => ret d
  | _ => init_with fuel parent (Some dollar_document)
  end.

(** [DOM.prototype.init] *)
Definition init (fuel : nat) (selector parent : jsval) : M DOM :=
  let* parent' := (if ToBoolean parent then dollar_parent fuel parent
                   else ret dollar_document) in
  init_with fuel selector (Some parent').

(** [$ = (selector, parent = $document) => ...] *)
Definition dollar (fuel : nat) (selector parent : jsval) : M DOM :=
  match selector with
  | VDOM d => ret d
  | _ =>
      init fuel selector
        (match parent with VUndefined => VDOM dollar_document | _ => parent end)
  end.

(** *** Methods *)

(** [DOM.prototype.addClass] *)
Definition addClass (classes : jsstring) (this : DOM) : M DOM :=
  let _classes := parseSpaces classes in
  each (λ element _ _,
          forEach (λ _class _ _, classList_add element _class) _classes 0%nat tt)
       this tt >>
  ret this.

(** [DOM.prototype.removeClass] *)
Definition removeClass (classes : jsstring) (this : DOM) : M DOM :=
  let _classes := parseSpaces classes in
  each (λ element _ _,
          forEach (λ _class _ _, classList_remove element _class)
                  _classes 0%nat tt)
       this tt >>
  ret this.

(** [typeof callback === 'function'] *)
Definition is_function (callback : jsval) : bool :=
  match callback with VFun _ => true | _ => false end.

(** [DOM.prototype.on] *)
Definition on (events : jsstring) (callback : jsval) (this : DOM) : M DOM :=
  if negb (is_function callback) || negb (ToBoolean (VStr events)) then ret this
  else
    let _events := parseSpaces events in
    each (λ element _ _,
            forEach (λ _event _ _, lift (addEventListener element _event callback))
                    _events 0%nat tt)
         this tt >>
    ret this.

(** [DOM.prototype.off] *)
Definition off (events : jsstring) (callback : jsval) (this : DOM) : M DOM :=
  if negb (is_function callback) || negb (ToBoolean (VStr events)) then ret this
  else
    let _events := parseSpaces events in
    each (λ element _ _,
            forEach (λ _event _ _,
                       lift (removeEventListener element _event callback))
                    _events 0%nat tt)
         this tt >>
    ret this.

(** [DOM.prototype.detach] *)
Definition detach (this : DOM) : M DOM :=
  each (λ element _ _,
          let* p := read (λ w, parentElement w element) in
          match p with
          | Some p => removeChild p element
          | None => ret tt
          end)
       this tt >>
  ret this.

(** The first argument of [css]: a rule name or an object of rules,
    given by its properties in [Object.keys] order. *)
Inductive css_rule :=
  | RuleName (name : jsstring)
  | RuleObject (props : list (jsstring * jsval)).

Definition rule_value (rule : css_rule) : jsval :=
  match rule with
  | RuleName name => VStr name
  | RuleObject props => VObject props
  end.

(** [String(i)] for an array index *)
Definition index_key (i : nat) : jsstring :=
  js (NilEmpty.string_of_uint (Nat.to_uint i)).

(** [Object.keys(rule)] paired with [rule[key]]: the properties of an
    object, the indexed code units of a string. *)
Definition own_properties (rule : css_rule) : list (jsstring * jsval) :=
  match rule with
  | RuleObject props => props
  | RuleName name => imap (λ i c, (index_key i, VStr [c])) name
  end.

Definition is_undefined (v : jsval) : bool :=
  match v with VUndefined => true | _ => false end.

(** The body of [css]; [self] is the method itself, for the call
    [this.css(_rule, rule[_rule])]. *)
Definition css_body (self : css_rule → jsval → DOM → M DOM)
    (rule : css_rule) (value : jsval) (this : DOM) : M DOM :=
  (if is_undefined value && ToBoolean (rule_value rule) then
     forEach (λ '(_rule, v) _ _, self (RuleName _rule) v this >> ret tt)
             (own_properties rule) 0%nat tt
   else
     each (λ element _ _, lift (style_set element (rule_value rule) value))
          this tt) >>
  ret this.

(** [DOM.prototype.css].  The recursion is at most two calls deep: an
    inner call has a rule name for [rule], and the call it makes in turn
    passes one code unit of that name as [value], which is defined.  The
    method is unfolded to that depth. *)
Definition css (rule : css_rule) (value : jsval) (this : DOM) : M DOM :=
  css_body (css_body (css_body (λ _ _ this, ret this))) rule value this.

(** [DOM.prototype.attr]; [value] is [None] when omitted. *)
Definition attr (key : jsstring) (value : option jsstring) (this : DOM)
  : M jsval :=
  match value with
  | None =>
      if negb (length_of this =? 1) then ret VUndefined
      else
        match get 0 this with
        | Some element => getAttribute element key
        | None => throw TypeError
        end
  | Some value =>
      each (λ element _ _, setAttribute element key value) this tt >>
      ret VUndefined
  end.

(** [data], get mode (no value given) *)
Definition data_get (key : option jsstring) (this : DOM) : M jsval :=
  if negb (length_of this =? 1) then ret VUndefined
  else
    match get 0 this with
    | None => throw TypeError
    | Some element =>
        let* has := read (λ w, bool_decide (is_Some (privateData w !! element))) in
        (if negb has then modify (privateData_init element) else ret tt) >>
        let* data := read (λ w, privateData w !! element) in
        match key, data with
        | Some key, Some r => read (record_get r key)
        | Some key, None => throw TypeError
        | None, Some r => ret (VRecord r)
        | None, None => ret VUndefined
        end
    end.

(** The property name [data[key]] uses *)
Definition property_key (key : option jsstring) : jsstring :=
  match key with Some key => key | None => js "undefined" end.

(** [DOM.prototype.data]; [key] is [None] when omitted. *)
Definition data (key : option jsstring) (value : jsval) (this : DOM)
  : M jsval :=
  if is_undefined value then data_get key this
  else
    each (λ element _ _,
            let* data := data_get None (dollar_node element) in
            match data with
            | VRecord r => modify (record_set r (property_key key) value)
            | _ => throw TypeError
            end)
         this tt >>
    ret (VDOM this).

(** [DOM.prototype.clone] *)
Definition clone (this : DOM) : M DOM :=
  let collection := dollar_nothing in
  each (λ element _ collection,
          let* copy := lift (cloneNode element) in
          ret (add (VNode copy) collection))
       this collection.

(** [toElement] *)
Definition toElement (html : jsstring) : M DOM :=
  let* children := lift (parse_body_children html) in
  detach (dollar_array children).

(** [$(x)] for a value that is no string *)
Definition dollar_value (x : jsval) : DOM :=
  match x with
  | VDOM d => d
  | _ => init_add x (Some dollar_document)
  end.

(** A method call on a value: only a collection has the methods. *)
Definition as_DOM (v : jsval) : M DOM :=
  match v with
  | VDOM d => ret d
  | _ => throw TypeError
  end.

Definition handle_value (o : option handle) : jsval :=
  match o with Some h => VNode h | None => VUndefined end.

(** [DOM.prototype.append].  [element] starts undefined ([None]) and
    [html] is reassigned by the branches. *)
Definition append (html : jsval) (this : DOM) : M DOM :=
  let* (element, html) :=
    match html with
    | VStr s =>
        let* parsed := toElement s in
        ret (Some this, VDOM parsed)
    | _ =>
        (* [!html instanceof DOM] is [(!html) instanceof DOM] *)
        if instanceof_DOM (VBool (negb (ToBoolean html))) then
          ret (Some (dollar_value (handle_value (get 0 this))),
               VDOM (dollar_value html))
        else ret (None, html)
    end in
  match element with
  | None => throw TypeError
  | Some element =>
      each (λ _element _ _,
              let* append := as_DOM html in
              let* append := (if length_of element >? 1 then clone append
                              else ret append) in
              each (λ _append _ _, lift (appendChild _element _append))
                   append tt)
           element tt >>
      ret this
  end.

(** [DOM.prototype[cleanUp]] *)
Definition cleanUp (this : DOM) : M unit :=
  each (λ element _ _, modify (privateData_delete element)) this tt.

(** [this.length = 0] *)
Definition truncate (this : DOM) : DOM :=
  mkDOM [] (selector this) (parent this).

(** [DOM.prototype.remove].  [fuel] bounds the depth of the recursion
    and of the tree walks of [find]. *)
Fixpoint remove (fuel : nat) (this : DOM) : M DOM :=
  match fuel with
  | O => λ _, OutOfFuel
  | S fuel' =>
      let* children := find fuel (js "*") this in
      (if negb (length_of children =? 0) then remove fuel' children >> ret tt
       else ret tt) >>
      (* Detach and clean up (internal memory collection) *)
      detach this >>
      cleanUp this >>
      (* Actually delete/remove the element(s) *)
      each (λ element _ _, ChildNode_remove element) this tt >>
      (* Remove the elements from the DOM collection *)
      ret (truncate this)
  end.

End DOM_class.

(** ** Predicates of the statements *)

(** The members of a collection pass [isElement]. *)
Definition members_allowed (d : DOM) : Prop :=
  Forall (λ h, isElement (VNode h) = true) (items d).

(** The predicate in the words of the specification: "a DOM element,
    or the document itself". *)
Definition element_or_document (h : handle) : bool :=
  bool_decide (hiface h = Element) || bool_decide (h = document).

Definition is_array (v : jsval) : bool :=
  match v with VArray _ => true | _ => false end.

(** Child lists and parent references agree. *)
Definition tree_ok (w : world) : Prop :=
  map_Forall (λ p kids, Forall (λ x, parentNode w !! x = Some p) kids)
             (childNodes w).

(** [rk] decreases from a node to its children: the tree has no cycle
    and [rk] bounds the height below a node. *)
Definition ranked (w : world) (rk : handle → nat) : Prop :=
  map_Forall (λ p kids, Forall (λ x, (rk x < rk p)%nat) kids) (childNodes w).

(** [contains w a x]: [x] is a descendant of [a]. *)
Inductive contains (w : world) : handle → handle → Prop :=
  | contains_child a x :
      x ∈ children_of w a → contains w a x
  | contains_below a k x :
      k ∈ children_of w a → contains w k x → contains w a x.

(** [x] is a member of [this] or a descendant element of one. *)
Definition removed_by (w : world) (this : DOM) (x : handle) : Prop :=
  x ∈ items this
  ∨ (hiface x = Element ∧ ∃ m, m ∈ items this ∧ contains w m x).

(** [x] has no parent, is the child of no node, and has no record in
    the private data store. *)
Definition gone (w : world) (x : handle) : Prop :=
  parentNode w !! x = None
  ∧ (∀ p, ¬ contains w p x)
  ∧ privateData w !! x = None.

(** [x] has no parent and no record in the private data store. *)
Definition unlinked (w : world) (x : handle) : Prop :=
  parentNode w !! x = None ∧ privateData w !! x = None.

(** A step that only unlinks nodes and drops private records. *)
Definition shrinks (w w' : world) : Prop :=
  parentNode w' ⊆ parentNode w ∧ privateData w' ⊆ privateData w.




(** The attribute [key] of [element], as [getAttribute] looks it up. *)
Definition attribute_of `{Platform} (w : world) (element : handle)
    (key : jsstring) : option jsstring :=
  attributes w !! element ≫= (.!! attribute_name element key).

(** The exception a member gets for the empty token: an element's
    class list rejects it, anything else has no class list. *)
Definition empty_token_error (element : handle) : exn :=
  if decide (hiface element = Element) then SyntaxError else TypeError.

(** A string of white space only (the empty string included). *)
Definition blank (s : jsstring) : Prop := Forall (λ c, isWhiteSpace c = true) s.

(** ** A small document for the examples

    [document > html > (div > span, text)], with a comment node on the
    side, and a platform that accepts non-empty attribute names and
    stores them as given. *)
Module Example.

Definition html : handle := Handle 2 Element.
Definition div : handle := Handle 3 Element.
Definition span : handle := Handle 4 Element.
Definition text : handle := Handle 5 Text.
Definition comment : handle := Handle 6 Comment.

Definition w0 : world :=
  World (list_to_map [(html, document); (div, html); (span, div); (text, html)])
        (list_to_map [(document, [html]); (html, [div; text]); (div, [span])])
        ∅ ∅ ∅ ∅ 1.

(** [w0] after [data('x', n)] on the three elements *)
Definition w1 : world :=
  World (parentNode w0) (childNodes w0) ∅ ∅
        (list_to_map [(html, 1%positive); (div, 2%positive);
                      (span, 3%positive)])
        (list_to_map [(1%positive, {[js "x" := VNum 1]});
                      (2%positive, {[js "x" := VNum 2]});
                      (3%positive, {[js "x" := VNum 3]})])
        4.

Definition rk (h : handle) : nat := (10 - Pos.to_nat (hid h))%nat.

#[export] Instance platform : Platform := {|
  selector_engine := λ _, None;
  attribute_name := λ _ key, key;
  valid_attribute_name := λ key, negb (bool_decide (key = []));
  style_set := λ _ _ _ w, Normal tt w;
  addEventListener := λ _ _ _ w, Normal tt w;
  removeEventListener := λ _ _ _ w, Normal tt w;
  parse_body_children := λ _ w, Normal [] w;
  cloneNode := λ h w, Normal h w;
  appendChild := λ _ _ w, Normal tt w;
|}.

End Example.

(** ** Further source functions, and predicates of their properties *)

(** The classes [[a-z]] and [[A-Z]] of a regular expression without
    flags, on a code unit. *)
Definition is_lower_az (c : N) : bool := ((97 <=? c) && (c <=? 122))%N.
Definition is_upper_AZ (c : N) : bool := ((65 <=? c) && (c <=? 90))%N.

(** [str.replace(/([a-z])([A-Z])/g, '$1-$2')]: a hyphen (code unit 45)
    goes between every lower-case letter and the capital that follows
    it; the search goes on behind the capital. *)
Fixpoint hyphenate (s : jsstring) : jsstring :=
  match s with
  | a :: ((b :: r) as rest) =>
      if is_lower_az a && is_upper_AZ b then a :: 45%N :: b :: hyphenate r
      else a :: hyphenate rest
  | _ => s
  end.

(** [const formatCssRule = str => str.replace(...).toLowerCase();]
    [toLowerCase] stands for [String.prototype.toLowerCase], whose
    Unicode tables are the platform's. *)
Definition formatCssRule (toLowerCase : jsstring → jsstring)
    (str : jsstring) : jsstring :=
  toLowerCase (hyphenate str).

(** Lower-casing of a code unit below 128 *)
Definition ascii_lower (c : N) : N :=
  if is_upper_AZ c then (c + 32)%N else c.

Definition is_ascii (s : jsstring) : Prop := Forall (λ c, (c < 128)%N) s.

(** What [toLowerCase] does to a string of code units below 128. *)
Definition lowers_ascii (toLowerCase : jsstring → jsstring) : Prop :=
  ∀ s, is_ascii s → toLowerCase s = ascii_lower <$> s.

(** No code unit of the string is white space. *)
Definition spaceless (s : jsstring) : Prop :=
  Forall (λ c, isWhiteSpace c = false) s.

(** The string without its white space. *)
Definition without_spaces (s : jsstring) : jsstring :=
  filter (λ c, isWhiteSpace c = false) s.

(** The string does not end in white space. *)
Definition ends_well (s : jsstring) : Prop :=
  ∀ c, last s = Some c → isWhiteSpace c = false.

(** No code unit of the string is a capital [A-Z]. *)
Definition no_capital (s : jsstring) : Prop :=
  Forall (λ c, is_upper_AZ c = false) s.

(** The string without its hyphens. *)
Definition without_hyphens (s : jsstring) : jsstring :=
  filter (λ c, c ≠ 45%N) s.

(** A [toLowerCase] for the examples: it lowers [A-Z] only. *)
Definition ascii_toLowerCase (s : jsstring) : jsstring := ascii_lower <$> s.

(** What the private data store holds for a node under a property
    name: [undefined] when there is no record or no such property. *)
Definition stored (w : world) (element : handle) (key : jsstring) : jsval :=
  match privateData w !! element with
  | Some r => record_get r key w
  | None => VUndefined
  end.

(** The store as [data] builds it: every record in use was allocated,
    and two nodes never share a record. *)
Definition store_ok (w : world) : Prop :=
  (∀ e r, privateData w !! e = Some r → (r < next_record w)%positive)
  ∧ (∀ e1 e2 r, privateData w !! e1 = Some r → privateData w !! e2 = Some r →
                e1 = e2).

(** The token list after [classList.add(token)]. *)
Definition add_token (l : list jsstring) (token : jsstring) : list jsstring :=
  if bool_decide (token ∈ l) then l else l ++ [token].

(** A token a class list accepts. *)
Definition valid_token (t : jsstring) : Prop :=
  t ≠ [] ∧ existsb isAsciiWhitespace t = false.

(** The two worlds differ in class lists at most. *)
Definition only_classes (w w' : world) : Prop :=
  parentNode w' = parentNode w ∧ childNodes w' = childNodes w
  ∧ attributes w' = attributes w ∧ privateData w' = privateData w
  ∧ records w' = records w ∧ next_record w' = next_record w.


(** The worlds agree outside the nodes of [l]: on parents and private
    records there, on attributes and class lists everywhere. *)
Definition same_outside (l : list handle) (w w' : world) : Prop :=
  (∀ x, x ∉ l → parentNode w' !! x = parentNode w !! x
                ∧ privateData w' !! x = privateData w !! x)
  ∧ attributes w' = attributes w ∧ classList w' = classList w.

(** ** [get] and [add] *)

Lemma at_index_lookup (this : DOM) (index : Z) :
  0 ≤ index → at_index index this = items this !! Z.to_nat index.
Proof.
  intros Hi. unfold at_index.
  destruct (Z.ltb_spec index 0) as [Hlt|_]; [lia | reflexivity].
Qed.


Lemma get_inside (this : DOM) (index : Z) :
  0 ≤ index ≤ length_of this - 1 →
  ∃ element, get index this = Some element
             ∧ items this !! Z.to_nat index = Some element.
Proof.
  intros [H0 H1]. unfold get, length_of in *.
  destruct (Z.gtb_spec index (Z.of_nat (length (items this)))) as [Hgt|_];
    [lia|].
  rewrite at_index_lookup by assumption.
  destruct (lookup_lt_is_Some_2 (items this) (Z.to_nat index)) as [e He];
    [lia|].
  exists e. by rewrite He.
Qed.




Lemma isElement_node (v : jsval) :
  isElement v = true → ∃ h, v = VNode h.
Proof. destruct v; try discriminate. eauto. Qed.

Lemma filter_allowed (l : list handle) :
  Forall (λ h, isElement (VNode h) = true)
         (filter (λ h, isElement (VNode h) = true) l).
Proof.
  apply Forall_forall. intros y Hy.
  by apply list_elem_of_filter in Hy as [? _].
Qed.

Lemma add_VNode (h : handle) (this : DOM) :
  add (VNode h) this = add_node h this.
Proof. unfold add_node. simpl. by destruct (isElement (VNode h)). Qed.

Lemma add_dropped (x : jsval) (this : DOM) :
  isElement x = false → is_array x = false → instanceof_DOM x = false →
  add x this = this.
Proof.
  intros He Ha Hd. destruct x; try done.
  rewrite add_VNode. unfold add_node. by rewrite He.
Qed.

Lemma add_node_spec (h : handle) (this : DOM) :
  add_node h this
  = mkDOM (items this ++ filter (λ h, isElement (VNode h) = true) [h])
          (selector this) (parent this).
Proof.
  unfold add_node. rewrite filter_cons, filter_nil.
  destruct (decide (isElement (VNode h) = true)) as [->|Hn].
  - reflexivity.
  - apply not_true_is_false in Hn. rewrite Hn, app_nil_r. by destruct this.
Qed.

Lemma foldl_add_node (l : list handle) (this : DOM) :
  foldl (λ this _element, add_node _element this) this l
  = mkDOM (items this ++ filter (λ h, isElement (VNode h) = true) l)
          (selector this) (parent this).
Proof.
  revert this. induction l as [|h l IH]; intros this; simpl.
  - rewrite filter_nil, app_nil_r. by destruct this.
  - rewrite IH, add_node_spec. simpl.
    rewrite <- app_assoc. change (h :: l) with ([h] ++ l).
    by rewrite (filter_app _ [h] l).
Qed.

(** [add] appends to the array part, and only what passes [isElement]. *)
Lemma add_spec :
  ∀ (x : jsval) (this : DOM),
    ∃ l, add x this = mkDOM (items this ++ l) (selector this) (parent this)
         ∧ Forall (λ h, isElement (VNode h) = true) l.
Proof.
  fix IH 1. intros x this.
  assert (Hid : ∃ l, this = mkDOM (items this ++ l) (selector this) (parent this)
                     ∧ Forall (λ h, isElement (VNode h) = true) l).
  { exists []. rewrite app_nil_r. split; [by destruct this | constructor]. }
  destruct x; try exact Hid.
  - rewrite add_VNode, add_node_spec. eexists. split; [reflexivity|].
    apply filter_allowed.
  - clear Hid. simpl. revert this.
    induction elts as [|a r IHr]; intros this.
    + exists []. rewrite app_nil_r. split; [by destruct this | constructor].
    + destruct (IH a this) as (l1 & E1 & F1).
      destruct (IHr (add a this)) as (l2 & E2 & F2).
      exists (l1 ++ l2). split; [|by apply Forall_app].
      rewrite E2, E1. simpl. by rewrite app_assoc.
  - simpl. rewrite foldl_add_node. eexists. split; [reflexivity|].
    apply filter_allowed.
Qed.

Lemma add_allowed (x : jsval) (this : DOM) :
  members_allowed this → members_allowed (add x this).
Proof.
  unfold members_allowed. intros Hthis.
  destruct (add_spec x this) as (l & -> & Hl). simpl. by apply Forall_app.
Qed.

Lemma add_array_nodes (l : list handle) (this : DOM) :
  add (VArray (VNode <$> l)) this
  = mkDOM (items this ++ filter (λ h, isElement (VNode h) = true) l)
          (selector this) (parent this).
Proof.
  revert this. induction l as [|h l IH]; intros this.
  - simpl. rewrite filter_nil, app_nil_r. by destruct this.
  - change (add (VArray (VNode <$> h :: l)) this)
      with (add (VArray (VNode <$> l)) (add (VNode h) this)).
    rewrite IH, add_VNode, add_node_spec. simpl.
    rewrite <- app_assoc. change (h :: l) with ([h] ++ l).
    by rewrite (filter_app _ [h] l).
Qed.

Lemma init_add_allowed (selector : jsval) (parent : option DOM) :
  members_allowed (init_add selector parent).
Proof. apply add_allowed. constructor. Qed.

(** C8. For a valid element [e], [add(e)] makes the collection one
    longer and [e] its last member; an input that is neither a valid
    element, nor an array, nor a collection leaves the collection as it
    was ([add] is a total function: nothing is raised). *)
Theorem add_length (this : DOM) :
  (∀ e, isElement e = true →
     length_of (add e this) = length_of this + 1
     ∧ ∃ h, e = VNode h
            ∧ get (length_of (add e this) - 1) (add e this) = Some h)
  ∧ (∀ x, isElement x = false → is_array x = false →
          instanceof_DOM x = false →
          add x this = this ∧ length_of (add x this) = length_of this).
Proof.
  split.
  - intros e He. destruct (isElement_node e He) as [h ->].
    rewrite add_VNode. unfold add_node. rewrite He.
    assert (Hlen : length_of (push h this) = length_of this + 1).
    { unfold length_of, push. simpl. rewrite length_app. simpl. lia. }
    split; [exact Hlen|]. exists h. split; [reflexivity|].
    destruct (get_inside (push h this) (length_of (push h this) - 1))
      as (e & -> & Hl); [unfold length_of in *; lia|].
    rewrite Hlen in Hl. unfold length_of, push in Hl. simpl in Hl.
    replace (Z.to_nat (Z.of_nat (length (items this)) + 1 - 1))
      with (length (items this) + 0)%nat in Hl by lia.
    rewrite lookup_app_r in Hl by lia.
    replace (length (items this) + 0 - length (items this))%nat
      with 0%nat in Hl by lia.
    simpl in Hl. congruence.
  - intros x He Ha Hd. by rewrite add_dropped.
Qed.

Lemma add_length_witness :
  let this := dollar_node Example.html in
  get (length_of (add (VNode Example.div) this) - 1)
      (add (VNode Example.div) this) = Some Example.div
  ∧ add (VStr (js "div")) this = this
  ∧ add (VNode Example.comment) this = this.
Proof.
  intros this. destruct (add_length this) as [Hin Hout].
  split; [|split].
  - destruct (Hin (VNode Example.div)) as (_ & h & Eh & Hget);
      [reflexivity|].
    injection Eh as <-. exact Hget.
  - apply Hout; reflexivity.
  - apply Hout; reflexivity.
Defined.

(** ** The monad *)

Lemma bind_Ok_inv {A B} (m : M A) (k : A → M B) w b w' :
  bind m k w = Ok b w' → ∃ a w1, m w = Ok a w1 ∧ k a w1 = Ok b w'.
Proof. unfold bind. destruct (m w); [eauto | discriminate | discriminate]. Qed.

Lemma bind_Ok {A B} (m : M A) (k : A → M B) w a w1 :
  m w = Ok a w1 → bind m k w = k a w1.
Proof. unfold bind. by intros ->. Qed.

Lemma bind_Throw {A B} (m : M A) (k : A → M B) w e w1 :
  m w = Throw e w1 → bind m k w = Throw e w1.
Proof. unfold bind. by intros ->. Qed.








Lemma forEach_cons {A St} (callback : A → nat → St → M St) x l i s :
  forEach callback (x :: l) i s
  = (let* s' := callback x i s in forEach callback l (S i) s').
Proof. reflexivity. Qed.





(** A property of the accumulator that every callback keeps. *)
Lemma forEach_invariant {A St} (P : St → Prop)
    (callback : A → nat → St → M St) l :
  (∀ x i s w s' w', P s → callback x i s w = Ok s' w' → P s') →
  ∀ i s w s' w', P s → forEach callback l i s w = Ok s' w' → P s'.
Proof.
  intros Hcb. induction l as [|x l IH]; intros i s w s' w' Hs Hrun; simpl in *.
  - unfold ret in Hrun. congruence.
  - apply bind_Ok_inv in Hrun as (s1 & w1 & Hx & Hrest).
    eapply IH; [|exact Hrest]. eapply Hcb; eauto.
Qed.

(** A loop over [l] whose steps succeed under the invariant [I],
    establish [Q] for their element and keep [Q] where it holds. *)
Lemma forEach_establish (step : handle → M unit)
    (I : world → Prop) (Q : handle → world → Prop) (l : list handle) :
  (∀ x w, x ∈ l → I w →
     ∃ w', step x w = Ok tt w' ∧ I w' ∧ Q x w' ∧ ∀ y, Q y w → Q y w') →
  ∀ i w, I w →
    ∃ w', forEach (λ element _ _, step element) l i tt w = Ok tt w'
          ∧ I w' ∧ (∀ x, x ∈ l → Q x w') ∧ (∀ y, Q y w → Q y w').
Proof.
  induction l as [|x l IH]; intros Hstep i w HI; simpl.
  - exists w. split; [reflexivity|]. split; [exact HI|].
    split; [|done]. intros x Hx. by apply elem_of_nil in Hx.
  - destruct (Hstep x w) as (w1 & Hx & HI1 & HQ1 & Hkeep1);
      [left | exact HI |].
    destruct (IH (λ y w Hy, Hstep y w (list_elem_of_further _ _ _ Hy))
                 (S i) w1 HI1) as (w2 & Hrest & HI2 & HQ2 & Hkeep2).
    exists w2. split; [by rewrite (bind_Ok _ _ _ _ _ Hx)|].
    split; [exact HI2|]. split.
    + intros y Hy. apply elem_of_cons in Hy as [->|Hy]; [|by apply HQ2].
      by apply Hkeep2.
    + intros y Hy. by apply Hkeep2, Hkeep1.
Qed.

(** ** Construction keeps the members allowed *)

Section Construction.
Context `{Platform}.

Lemma find_allowed fuel selector this w d w' :
  find fuel selector this w = Ok d w' → members_allowed d.
Proof.
  unfold find, each. apply forEach_invariant.
  - intros x i s w1 s' w1' Hs Hrun.
    apply bind_Ok_inv in Hrun as (l & w2 & _ & Hret).
    unfold ret in Hret.
    assert (s' = add (VArray (VNode <$> l)) s) as -> by congruence.
    by apply add_allowed.
  - apply init_add_allowed.
Qed.

Lemma clone_allowed this w d w' :
  clone this w = Ok d w' → members_allowed d.
Proof.
  unfold clone, each. apply forEach_invariant.
  - intros x i s w1 s' w1' Hs Hrun.
    apply bind_Ok_inv in Hrun as (copy & w2 & _ & Hret).
    unfold ret in Hret.
    assert (s' = add (VNode copy) s) as -> by congruence.
    by apply add_allowed.
  - apply init_add_allowed.
Qed.

Lemma init_with_allowed fuel selector parent w d w' :
  init_with fuel selector parent w = Ok d w' → members_allowed d.
Proof.
  assert (Helse : ret (init_add selector parent) w = Ok d w' →
                  members_allowed d).
  { unfold ret. intros [= <- _]. apply init_add_allowed. }
  unfold init_with. destruct selector; try exact Helse.
  destruct parent as [p|]; [|exact Helse].
  intros Hrun. apply bind_Ok_inv in Hrun as (found & w1 & _ & Hrun).
  revert Hrun. unfold each. apply forEach_invariant.
  - intros x i s' w2 s'' w2' Hs Hret.
    unfold ret in Hret.
    assert (s'' = add (VNode x) s') as -> by congruence.
    by apply add_allowed.
  - constructor.
Qed.

Lemma dollar_allowed fuel selector parent w d w' :
  instanceof_DOM selector = false →
  dollar fuel selector parent w = Ok d w' → members_allowed d.
Proof.
  intros Hsel. unfold dollar, init.
  destruct selector; try discriminate;
    intros Hrun; apply bind_Ok_inv in Hrun as (p & w1 & _ & Hrun);
    by apply init_with_allowed in Hrun.
Qed.

(** What [isElement] lets in: element nodes, text nodes and HTML
    documents, and no value that is not a node. *)
Lemma isElement_spec (v : jsval) :
  isElement v = true
  ↔ ∃ h, v = VNode h
         ∧ (hiface h = Element ∨ hiface h = Text ∨ hiface h = HTMLDocument).
Proof.
  split.
  - intros Hv. destruct (isElement_node v Hv) as [h ->]. exists h.
    split; [reflexivity|]. destruct h as [id []]; try discriminate; eauto.
  - intros (h & -> & Hh). destruct h as [id i]. simpl in Hh.
    by destruct Hh as [->|[->| ->]].
Qed.

(** C4, as the code has it.  Every member of a collection passes
    [isElement], which lets in element nodes, text nodes and HTML
    documents: the property holds of [$document], of every collection
    the factory builds, of the results of [find] and [clone], and [add]
    keeps it, whatever it is given; an input that fails the predicate
    and is neither an array nor a collection is dropped, by [add] and at
    construction. *)
Theorem members_invariant :
  (∀ v, isElement v = true
        ↔ ∃ h, v = VNode h
               ∧ (hiface h = Element ∨ hiface h = Text
                  ∨ hiface h = HTMLDocument))
  ∧ members_allowed dollar_document
  ∧ (∀ x this, members_allowed this → members_allowed (add x this))
  ∧ (∀ fuel selector parent w d w',
       instanceof_DOM selector = false →
       dollar fuel selector parent w = Ok d w' → members_allowed d)
  ∧ (∀ fuel selector this w d w',
       find fuel selector this w = Ok d w' → members_allowed d)
  ∧ (∀ this w d w', clone this w = Ok d w' → members_allowed d)
  ∧ (∀ x this,
       isElement x = false → is_array x = false → instanceof_DOM x = false →
       add x this = this)
  ∧ (∀ x parent,
       isElement x = false → is_array x = false → instanceof_DOM x = false →
       items (init_add x parent) = []).
Proof.
  split; [apply isElement_spec|].
  split; [apply init_add_allowed|].
  split; [apply add_allowed|].
  split; [apply dollar_allowed|].
  split; [apply find_allowed|].
  split; [apply clone_allowed|].
  split; [apply add_dropped|].
  intros x parent He Ha Hd. unfold init_add. by rewrite add_dropped.
Qed.

End Construction.

Lemma members_invariant_witness :
  members_allowed (add (VArray [VNode Example.comment; VNum 7;
                                VArray [VNode Example.div]])
                       (dollar_node Example.html))
  ∧ add (VNode Example.comment) (dollar_node Example.html)
    = dollar_node Example.html
  ∧ items (init_add (VNum 7) None) = [].
Proof.
  destruct (@members_invariant Example.platform)
    as (_ & _ & Hadd & _ & _ & _ & Hdrop & Hinit).
  split; [|split].
  - apply Hadd. apply init_add_allowed.
  - apply Hdrop; reflexivity.
  - apply Hinit; reflexivity.
Defined.

(** C4 as stated fails: a text node passes [isElement] and becomes a
    member, and it is neither a DOM element nor the document. *)
Lemma text_node_is_member :
  items (add (VNode Example.text) dollar_nothing) = [Example.text]
  ∧ element_or_document Example.text = false.
Proof. split; reflexivity. Qed.

(** The factory on the arguments the methods pass it: [$()],
    [$(element)] and [$(children)] take the branch of [init] that adds
    the argument. *)
Lemma dollar_shortcuts `{Platform} (fuel : nat) :
  dollar fuel VUndefined VUndefined = ret dollar_nothing
  ∧ (∀ element, dollar fuel (VNode element) VUndefined
                = ret (dollar_node element))
  ∧ (∀ children, dollar fuel (VArray (VNode <$> children)) VUndefined
                 = ret (dollar_array children))
  ∧ (∀ x, (∀ s, x ≠ VStr s) →
          dollar fuel x VUndefined = ret (dollar_value x))
  ∧ (∀ parent, dollar fuel parent VUndefined = dollar_parent fuel parent).
Proof.
  split; [reflexivity|]. split; [reflexivity|]. split; [reflexivity|].
  split.
  - intros x Hx. destruct x; try reflexivity. by destruct (Hx s).
  - intros parent. by destruct parent.
Qed.

(** ** What the methods return *)

Section Returns.
Context `{Platform}.

(** C2 fails on the code.  For every argument that is no string (an
    element, an array, a collection, ...) the guard
    [!html instanceof DOM], that is [(!html) instanceof DOM], is false:
    the second branch is never taken, [element] stays undefined and
    [element.each] throws a [TypeError] with nothing appended, where the
    claim (and the comment above [append]) has the argument wrapped and
    appended to the first member. *)
Theorem append_not_string (html : jsval) (this : DOM) (w : world) :
  (∀ s, html ≠ VStr s) → append html this w = Throw TypeError w.
Proof. intros Hs. destruct html; try reflexivity. by destruct (Hs s). Qed.












End Returns.



Lemma append_element_throws :
  @append Example.platform (VNode Example.span)
          (add (VNode Example.div) (dollar_node Example.html)) Example.w0
  = Throw TypeError Example.w0.
Proof. apply (@append_not_string Example.platform). discriminate. Defined.

(** ** Attributes *)

Section Attributes.
Context `{Platform}.

Lemma dollar_node_element (m : handle) :
  hiface m = Element →
  dollar_node m = mkDOM [m] (VNode m) (Some dollar_document).
Proof. destruct m as [id i]. simpl. by intros ->. Qed.

Lemma attr_get_one key element sel par w :
  hiface element = Element →
  attr key None (mkDOM [element] sel par) w
  = Ok (match attribute_of w element key with
        | Some s => VStr s
        | None => VNull
        end) w.
Proof.
  intros He. unfold attr. simpl. unfold getAttribute.
  destruct (decide (hiface element = Element)); [reflexivity | done].
Qed.

Lemma attr_get_not_one key this w :
  length_of this ≠ 1 → attr key None this w = Ok VUndefined w.
Proof.
  intros Hlen. unfold attr.
  destruct (Z.eqb_spec (length_of this) 1); [done | reflexivity].
Qed.

Lemma setAttribute_element element key value w :
  hiface element = Element → valid_attribute_name key = true →
  ∃ w', setAttribute element key value w = Ok tt w'
        ∧ attribute_of w' element key = Some value
        ∧ ∀ y, attribute_of w y key = Some value →
               attribute_of w' y key = Some value.
Proof.
  intros He Hk. unfold setAttribute. rewrite Hk.
  destruct (decide (hiface element = Element)); [|done].
  eexists. split; [reflexivity|]. unfold attribute_of. simpl. split.
  - rewrite lookup_insert_eq. simpl. by rewrite lookup_insert_eq.
  - intros y Hy. destruct (decide (element = y)) as [<-|Hne].
    + rewrite lookup_insert_eq. simpl. by rewrite lookup_insert_eq.
    + by rewrite lookup_insert_ne.
Qed.

Lemma attr_set key value this w :
  Forall (λ m, hiface m = Element) (items this) →
  valid_attribute_name key = true →
  ∃ w', attr key (Some value) this w = Ok VUndefined w'
        ∧ ∀ m, m ∈ items this → attribute_of w' m key = Some value.
Proof.
  intros Hel Hk. unfold attr, each.
  destruct (forEach_establish (λ element, setAttribute element key value)
              (λ _, True) (λ m w, attribute_of w m key = Some value)
              (items this)) with (i := 0%nat) (w := w)
    as (w' & Hrun & _ & HQ & _); [|done|].
  - intros x w1 Hx _. rewrite Forall_forall in Hel.
    destruct (setAttribute_element x key value w1 (Hel x Hx) Hk)
      as (w2 & E & Q & K).
    by exists w2.
  - exists w'. split; [|exact HQ]. by rewrite (bind_Ok _ _ _ _ _ Hrun).
Qed.

(** C5. With the value omitted, [attr(key)] returns [undefined] for
    every collection whose length is not one, and the attribute string of
    the member for a collection of one element that carries the
    attribute; a string is returned only by a collection of exactly one
    member.  [attr(key, value)] sets the attribute on every member:
    afterwards, wrapping any member alone and calling [attr(key)] returns
    exactly [value]. *)
Theorem attr_get_set (key : jsstring) :
  (∀ this w, length_of this ≠ 1 → attr key None this w = Ok VUndefined w)
  ∧ (∀ element sel par w s,
       hiface element = Element → attribute_of w element key = Some s →
       attr key None (mkDOM [element] sel par) w = Ok (VStr s) w)
  ∧ (∀ this w s w',
       attr key None this w = Ok (VStr s) w' → length_of this = 1)
  ∧ (∀ value this w,
       Forall (λ m, hiface m = Element) (items this) →
       valid_attribute_name key = true →
       ∃ w', attr key (Some value) this w = Ok VUndefined w'
             ∧ ∀ m, m ∈ items this →
                    attr key None (dollar_node m) w' = Ok (VStr value) w').
Proof.
  split; [apply attr_get_not_one|]. split; [|split].
  - intros element sel par w s He Hs. by rewrite attr_get_one, Hs.
  - intros this w s w' Hrun.
    destruct (decide (length_of this = 1)) as [|Hne]; [done|].
    rewrite attr_get_not_one in Hrun by done. discriminate.
  - intros value this w Hel Hk.
    destruct (attr_set key value this w Hel Hk) as (w' & Hrun & Hall).
    exists w'. split; [exact Hrun|]. intros m Hm.
    rewrite Forall_forall in Hel.
    rewrite dollar_node_element, attr_get_one by auto.
    by rewrite (Hall m Hm).
Qed.

(** C10. On a collection of one element that lacks the attribute,
    [attr(key)] returns [null], the platform's answer for an absent
    attribute; [undefined] is what a collection of any other length
    gets, and the two values differ. *)
Theorem attr_absent_null (key : jsstring) (element : handle)
    (sel : jsval) (par : option DOM) (w : world) :
  hiface element = Element → attribute_of w element key = None →
  attr key None (mkDOM [element] sel par) w = Ok VNull w
  ∧ VNull ≠ VUndefined
  ∧ ∀ this, length_of this ≠ 1 → attr key None this w = Ok VUndefined w.
Proof.
  intros He Hnone. split; [|split].
  - by rewrite attr_get_one, Hnone.
  - discriminate.
  - intros this. apply attr_get_not_one.
Qed.

End Attributes.

Lemma attr_get_set_witness :
  ∃ w', @attr Example.platform (js "k") (Some (js "v"))
              (add (VNode Example.div) (dollar_node Example.html)) Example.w0
        = Ok VUndefined w'
        ∧ @attr Example.platform (js "k") None (dollar_node Example.div) w'
          = Ok (VStr (js "v")) w'.
Proof.
  destruct (@attr_get_set Example.platform (js "k")) as (_ & _ & _ & Hset).
  destruct (Hset (js "v") (add (VNode Example.div) (dollar_node Example.html))
                 Example.w0) as (w' & Hrun & Hall).
  - vm_compute. repeat constructor.
  - reflexivity.
  - exists w'. split; [exact Hrun|]. apply Hall. vm_compute.
    right. left.
Defined.

Lemma attr_absent_null_witness :
  @attr Example.platform (js "k") None (dollar_node Example.html) Example.w0
  = Ok VNull Example.w0.
Proof.
  apply (@attr_absent_null Example.platform (js "k") Example.html
           (VNode Example.html) (Some dollar_document) Example.w0);
    reflexivity.
Defined.

(** ** Class names *)

Lemma trimStart_blank (s : jsstring) : blank s → trimStart s = [].
Proof.
  induction 1 as [|c s Hc _ IH]; simpl; [reflexivity|]. by rewrite Hc.
Qed.

Lemma parseSpaces_blank (s : jsstring) : blank s → parseSpaces s = [[]].
Proof.
  intros Hs. unfold parseSpaces, trim. by rewrite (trimStart_blank s Hs).
Qed.

Example parseSpaces_names :
  parseSpaces (js " foo  bar ") = [js "foo"; js "bar"].
Proof. reflexivity. Qed.

Example addClass_names :
  match addClass (js "foo bar") (dollar_node Example.html) Example.w0 with
  | Ok this w => this = dollar_node Example.html
                 ∧ classes_of w Example.html = [js "foo"; js "bar"]
  | _ => False
  end.
Proof. split; reflexivity. Qed.

(** C6, as the code has it.  For an empty or white-space-only string
    [parseSpaces] gives the list of one empty token, not the empty list.
    [addClass] and [removeClass] are then a no-op on an empty collection;
    on any other, the first member is handed the empty token and the call
    throws, with the world (so every class list) unchanged. *)
Theorem blank_classes (classes : jsstring) (this : DOM) (w : world) :
  blank classes →
  parseSpaces classes = [[]]
  ∧ (items this = [] →
       addClass classes this w = Ok this w
       ∧ removeClass classes this w = Ok this w)
  ∧ (∀ element rest, items this = element :: rest →
       addClass classes this w = Throw (empty_token_error element) w
       ∧ removeClass classes this w = Throw (empty_token_error element) w).
Proof.
  intros Hblank. pose proof (parseSpaces_blank classes Hblank) as Hparse.
  split; [exact Hparse|]. split.
  - intros Hitems. unfold addClass, removeClass, each.
    by rewrite Hitems.
  - intros element rest Hitems.
    unfold addClass, removeClass, each, empty_token_error.
    rewrite Hparse, Hitems. simpl.
    unfold bind, classList_add, classList_remove.
    by destruct (decide (hiface element = Element)).
Qed.

Lemma blank_classes_witness :
  parseSpaces (js "  ") = [[]]
  ∧ addClass (js "  ") (dollar_node Example.html) Example.w0
    = Throw SyntaxError Example.w0
  ∧ addClass (js "  ") (truncate (dollar_node Example.html)) Example.w0
    = Ok (truncate (dollar_node Example.html)) Example.w0.
Proof.
  assert (Hblank : blank (js "  ")) by (vm_compute; repeat constructor).
  split; [|split].
  - by destruct (blank_classes (js "  ") (dollar_node Example.html)
                   Example.w0 Hblank) as (Hparse & _).
  - destruct (blank_classes (js "  ") (dollar_node Example.html)
                Example.w0 Hblank) as (_ & _ & Hthrow).
    by destruct (Hthrow Example.html [] eq_refl) as (Hadd & _).
  - destruct (blank_classes (js "  ") (truncate (dollar_node Example.html))
                Example.w0 Hblank) as (_ & Hempty & _).
    by destruct (Hempty eq_refl) as (Hadd & _).
Defined.

(** C6 as stated fails: the token list of a blank string is not empty,
    and [addClass] on a collection of one element throws. *)
Lemma blank_classes_not_noop :
  parseSpaces (js " ") ≠ []
  ∧ addClass (js " ") (dollar_node Example.html) Example.w0
    = Throw SyntaxError Example.w0
  ∧ removeClass (js "") (dollar_node Example.html) Example.w0
    = Throw SyntaxError Example.w0.
Proof. split; [discriminate | split; reflexivity]. Qed.

(** ** The node tree *)

Lemma tree_ok_child w p x :
  tree_ok w → x ∈ children_of w p → parentNode w !! x = Some p.
Proof.
  intros Hok Hx. unfold children_of in Hx.
  destruct (childNodes w !! p) as [kids|] eqn:Hkids; simpl in Hx.
  - pose proof (map_Forall_lookup_1 _ _ _ _ Hok Hkids) as Hall.
    rewrite Forall_forall in Hall. by apply Hall.
  - by apply elem_of_nil in Hx.
Qed.

Lemma ranked_child w rk p x :
  ranked w rk → x ∈ children_of w p → (rk x < rk p)%nat.
Proof.
  intros Hrk Hx. unfold children_of in Hx.
  destruct (childNodes w !! p) as [kids|] eqn:Hkids; simpl in Hx.
  - pose proof (map_Forall_lookup_1 _ _ _ _ Hrk Hkids) as Hall.
    rewrite Forall_forall in Hall. by apply Hall.
  - by apply elem_of_nil in Hx.
Qed.

Lemma ranked_contains w rk a x :
  ranked w rk → contains w a x → (rk x < rk a)%nat.
Proof.
  intros Hrk. induction 1 as [a x Hx | a k x Hk _ IH].
  - by eapply ranked_child.
  - pose proof (ranked_child w rk a k Hrk Hk). lia.
Qed.

Lemma contains_is_child w p x :
  contains w p x → ∃ q, x ∈ children_of w q.
Proof. induction 1; eauto. Qed.

Lemma no_parent_not_contained w x :
  tree_ok w → parentNode w !! x = None → ∀ p, ¬ contains w p x.
Proof.
  intros Hok Hnone p Hc. apply contains_is_child in Hc as [q Hq].
  apply (tree_ok_child w q x Hok) in Hq. congruence.
Qed.

(** The walk over a list of children, given the walk below each. *)
Lemma descendants_children (f : handle → option (list handle))
    (R : handle → handle → Prop) (ks : list handle) :
  (∀ k, k ∈ ks → ∃ lk, f k = Some lk ∧ ∀ x, x ∈ lk ↔ R k x) →
  ∃ l, @List.concat handle <$> mapM (λ k, cons k <$> f k) ks = Some l
       ∧ ∀ x, x ∈ l ↔ ∃ k, k ∈ ks ∧ (x = k ∨ R k x).
Proof.
  induction ks as [|k ks IH]; intros Hks.
  - exists []. split; [reflexivity|]. intros x. split.
    + intros Hx. by apply elem_of_nil in Hx.
    + intros (k & Hk & _). by apply elem_of_nil in Hk.
  - destruct (Hks k) as (lk & Hfk & Hlk); [left|].
    destruct IH as (l & Hl & Hspec).
    { intros k' Hk'. apply Hks. by right. }
    apply fmap_Some in Hl as (ys & Hys & ->).
    exists (k :: lk ++ List.concat ys). split.
    + simpl. rewrite Hfk. simpl. rewrite Hys. reflexivity.
    + intros x. rewrite elem_of_cons, elem_of_app, Hspec, Hlk. split.
      * intros [->|[Hx|(k' & Hk' & Hx)]].
        -- exists k. split; [left | by left].
        -- exists k. split; [left | by right].
        -- exists k'. split; [by right | exact Hx].
      * intros (k' & Hk' & Hx). apply elem_of_cons in Hk' as [->|Hk'].
        -- destruct Hx as [->|Hx]; [by left | right; by left].
        -- right. right. by exists k'.
Qed.

(** With fuel above the rank of a node, the walk below it ends and
    lists exactly its descendants. *)
Lemma descendants_spec w rk :
  ranked w rk →
  ∀ fuel h, (rk h < fuel)%nat →
    ∃ l, descendants fuel w h = Some l ∧ ∀ x, x ∈ l ↔ contains w h x.
Proof.
  intros Hrk. induction fuel as [|fuel IH]; intros h Hfuel; [lia|].
  destruct (descendants_children (descendants fuel w) (contains w)
              (children_of w h)) as (l & Hl & Hspec).
  { intros k Hk. apply IH.
    pose proof (ranked_child w rk h k Hrk Hk). lia. }
  exists l. split; [exact Hl|].
  intros x. rewrite Hspec. split.
  - intros (k & Hk & [->|Hx]);
      [by apply contains_child | by eapply contains_below].
  - intros Hc. inversion Hc; subst; eauto.
Qed.

Lemma shrinks_refl w : shrinks w w.
Proof. by split. Qed.

Lemma shrinks_trans w1 w2 w3 : shrinks w1 w2 → shrinks w2 w3 → shrinks w1 w3.
Proof. intros [? ?] [? ?]. split; etrans; eauto. Qed.

Lemma shrinks_unlinked w w' x : shrinks w w' → unlinked w x → unlinked w' x.
Proof.
  intros [Hp Hd] [Hx1 Hx2]. split; eapply lookup_weaken_None; eauto.
Qed.

Lemma unlink_spec w child p :
  tree_ok w → parentNode w !! child = Some p →
  tree_ok (unlink child p w)
  ∧ shrinks w (unlink child p w)
  ∧ parentNode (unlink child p w) !! child = None.
Proof.
  intros Hok Hp. split; [|split].
  - apply map_Forall_lookup_2. intros q kids Hq. simpl in Hq.
    apply Forall_forall. intros x Hx. simpl.
    destruct (decide (p = q)) as [<-|Hne].
    + rewrite lookup_insert_eq in Hq. injection Hq as <-.
      apply list_elem_of_filter in Hx as [Hxc Hx].
      rewrite lookup_delete_ne by done. by apply tree_ok_child.
    + rewrite lookup_insert_ne in Hq by done.
      assert (Hxq : parentNode w !! x = Some q).
      { apply tree_ok_child; [done|]. unfold children_of. by rewrite Hq. }
      rewrite lookup_delete_ne; [done|]. intros ->. congruence.
  - split; simpl; [apply delete_subseteq | done].
  - simpl. apply lookup_delete_eq.
Qed.

Lemma element_allowed x : hiface x = Element → isElement (VNode x) = true.
Proof. destruct x as [id i]. simpl. by intros ->. Qed.

Section Removal.
Context `{Platform}.

Lemma querySelectorAll_star w rk fuel m :
  ranked w rk → hiface m = Element → (rk m < fuel)%nat →
  ∃ l, querySelectorAll fuel m (js "*") w = Ok l w
       ∧ ∀ x, x ∈ l ↔ hiface x = Element ∧ contains w m x.
Proof.
  intros Hrk Hm Hfuel.
  destruct (descendants_spec w rk Hrk fuel m Hfuel) as (l & Hl & Hspec).
  unfold querySelectorAll, isParentNode, compile_selector. rewrite Hm.
  destruct (decide (js "*" = js "*")); [|done].
  rewrite Hl. eexists. split; [reflexivity|].
  intros x. rewrite list_elem_of_filter, Hspec, andb_true_r.
  by rewrite bool_decide_spec.
Qed.

Lemma find_star_loop w rk fuel :
  ranked w rk →
  ∀ l acc i,
    (∀ m, m ∈ l → hiface m = Element ∧ (rk m < fuel)%nat) →
    ∃ acc',
      forEach (λ element (_ : nat) collection,
                 let* elements := querySelectorAll fuel element (js "*") in
                 ret (add (VArray (VNode <$> elements)) collection))
              l i acc w = Ok acc' w
      ∧ ∀ x, x ∈ items acc'
             ↔ x ∈ items acc
               ∨ (hiface x = Element ∧ ∃ m, m ∈ l ∧ contains w m x).
Proof.
  intros Hrk. induction l as [|m l IH]; intros acc i Hl.
  - exists acc. split; [reflexivity|]. intros x. split; [by left|].
    intros [Hx|(_ & m & Hm & _)]; [done | by apply elem_of_nil in Hm].
  - destruct (Hl m) as [Hm Hfuel]; [left|].
    destruct (querySelectorAll_star w rk fuel m Hrk Hm Hfuel)
      as (elements & Hq & Hspec).
    destruct (IH (add (VArray (VNode <$> elements)) acc) (S i))
      as (acc' & Hrun & Hacc').
    { intros m' Hm'. apply Hl. by right. }
    exists acc'. split.
    + rewrite forEach_cons. cbv beta.
      erewrite bind_Ok; [exact Hrun|]. by rewrite (bind_Ok _ _ _ _ _ Hq).
    + intros x. rewrite Hacc', add_array_nodes. simpl.
      rewrite elem_of_app, list_elem_of_filter, Hspec. split.
      * intros [[Hx|(_ & Hx & Hc)]|(Hx & m' & Hm' & Hc)].
        -- by left.
        -- right. split; [done|]. exists m. split; [left | done].
        -- right. split; [done|]. exists m'. split; [by right | done].
      * intros [Hx|(Hx & m' & Hm' & Hc)]; [by left; left|].
        apply elem_of_cons in Hm' as [->|Hm'].
        -- left. right. split; [by apply element_allowed | done].
        -- right. split; [done|]. by exists m'.
Qed.

(** [find('*')] leaves the world as it is and collects the descendant
    elements of the members. *)
Lemma find_star w rk fuel this :
  ranked w rk →
  (∀ m, m ∈ items this → hiface m = Element ∧ (rk m < fuel)%nat) →
  ∃ children,
    find fuel (js "*") this w = Ok children w
    ∧ ∀ x, x ∈ items children
           ↔ hiface x = Element ∧ ∃ m, m ∈ items this ∧ contains w m x.
Proof.
  intros Hrk Hthis.
  destruct (find_star_loop w rk fuel Hrk (items this) dollar_nothing 0%nat
              Hthis) as (children & Hrun & Hspec).
  exists children. split; [exact Hrun|].
  intros x. rewrite Hspec. split; [|by right].
  intros [Hx|Hx]; [by apply elem_of_nil in Hx | done].
Qed.

End Removal.

(** ** [detach], [cleanUp] and [remove] *)

Lemma detach_spec this w :
  tree_ok w →
  ∃ w', detach this w = Ok this w' ∧ tree_ok w' ∧ shrinks w w'.
Proof.
  intros Hok. unfold detach, each.
  destruct (forEach_establish
              (λ element,
                 let* p := read (λ w, parentElement w element) in
                 match p with
                 | Some p => removeChild p element
                 | None => ret tt
                 end)
              (λ w1, tree_ok w1 ∧ shrinks w w1) (λ _ _, True) (items this))
    with (i := 0%nat) (w := w) as (w' & Hrun & [Hok' Hsh] & _ & _).
  - intros x w1 _ [Hok1 Hsh1]. unfold bind, read, parentElement.
    destruct (parentNode w1 !! x) as [p|] eqn:Hp.
    + destruct (decide (hiface p = Element)).
      * unfold removeChild. rewrite Hp.
        destruct (decide (Some p = Some p)); [|done].
        destruct (unlink_spec w1 x p Hok1 Hp) as (Hok2 & Hsh2 & _).
        eexists. split; [reflexivity|].
        split; [|done]. split; [done|]. by eapply shrinks_trans.
      * exists w1. split; [reflexivity|]. split; [by split|]. by split.
    + exists w1. split; [reflexivity|]. split; [by split|]. by split.
  - split; [done | apply shrinks_refl].
  - exists w'. split; [by rewrite (bind_Ok _ _ _ _ _ Hrun)|]. by split.
Qed.

Lemma cleanUp_spec this w :
  tree_ok w →
  ∃ w', cleanUp this w = Ok tt w' ∧ tree_ok w' ∧ shrinks w w'
        ∧ ∀ m, m ∈ items this → privateData w' !! m = None.
Proof.
  intros Hok. unfold cleanUp, each.
  destruct (forEach_establish
              (λ element, modify (privateData_delete element))
              (λ w1, tree_ok w1 ∧ shrinks w w1)
              (λ m w1, privateData w1 !! m = None) (items this))
    with (i := 0%nat) (w := w) as (w' & Hrun & [Hok' Hsh] & HQ & _).
  - intros x w1 _ [Hok1 [Hsh1 Hsh1']]. eexists. split; [reflexivity|].
    split; [|split]; simpl.
    + split; [exact Hok1|]. split; simpl; [done|].
      etrans; [apply delete_subseteq | done].
    + apply lookup_delete_eq.
    + intros y Hy. eapply lookup_weaken_None; [exact Hy|].
      apply delete_subseteq.
  - split; [done | apply shrinks_refl].
  - by exists w'.
Qed.

Lemma remove_nodes_spec this w :
  tree_ok w → (∀ m, m ∈ items this → isChildNode m = true) →
  ∃ w', each (λ element (_ : nat) (_ : unit), ChildNode_remove element)
             this tt w = Ok tt w'
        ∧ tree_ok w' ∧ shrinks w w'
        ∧ ∀ m, m ∈ items this → parentNode w' !! m = None.
Proof.
  intros Hok Hthis. unfold each.
  destruct (forEach_establish ChildNode_remove
              (λ w1, tree_ok w1 ∧ shrinks w w1)
              (λ m w1, parentNode w1 !! m = None) (items this))
    with (i := 0%nat) (w := w) as (w' & Hrun & [Hok' Hsh] & HQ & _).
  - intros x w1 Hx [Hok1 Hsh1]. unfold ChildNode_remove.
    rewrite (Hthis x Hx).
    destruct (parentNode w1 !! x) as [p|] eqn:Hp.
    + destruct (unlink_spec w1 x p Hok1 Hp) as (Hok2 & Hsh2 & Hnone).
      eexists. split; [reflexivity|]. split; [|split].
      * split; [done|]. by eapply shrinks_trans.
      * exact Hnone.
      * intros y Hy. eapply lookup_weaken_None; [exact Hy|]. apply Hsh2.
    + exists w1. split; [reflexivity|]. split; [by split|]. by split.
  - split; [done | apply shrinks_refl].
  - by exists w'.
Qed.

Section Remove.
Context `{Platform}.

(** The order of [remove]: the descendants first, by the recursive
    call; then [detach] and [cleanUp] on the members; then the node
    removal; then the truncation. *)
Lemma remove_unfold fuel this :
  remove (S fuel) this
  = (let* children := find (S fuel) (js "*") this in
     (if negb (length_of children =? 0) then remove fuel children >> ret tt
      else ret tt) >>
     detach this >>
     cleanUp this >>
     each (λ element _ _, ChildNode_remove element) this tt >>
     ret (truncate this)).
Proof. reflexivity. Qed.

Lemma remove_unlinks rk :
  ∀ fuel this w,
    tree_ok w → ranked w rk →
    (∀ m, m ∈ items this → hiface m = Element ∧ (rk m ≤ fuel)%nat) →
    ∃ w', remove (S fuel) this w = Ok (truncate this) w'
          ∧ tree_ok w' ∧ shrinks w w'
          ∧ ∀ x, removed_by w this x → unlinked w' x.
Proof.
  induction fuel as [fuel IH] using lt_wf_ind.
  intros this w Hok Hrk Hthis.
  destruct (find_star w rk (S fuel) this Hrk) as (children & Hfind & Hchildren).
  { intros m Hm. destruct (Hthis m Hm). split; [done | lia]. }
  assert (Hrec : ∃ w1,
    (if negb (length_of children =? 0) then remove fuel children >> ret tt
     else ret tt) w = Ok tt w1
    ∧ tree_ok w1 ∧ shrinks w w1
    ∧ ∀ x, x ∈ items children → unlinked w1 x).
  { destruct (length_of children =? 0) eqn:Hlen; simpl.
    - exists w. split; [reflexivity|]. split; [done|].
      split; [apply shrinks_refl|]. intros x Hx.
      apply Z.eqb_eq in Hlen. unfold length_of in Hlen.
      destruct (items children); [by apply elem_of_nil in Hx|].
      simpl in Hlen. lia.
    - assert (Hkids : ∀ m, m ∈ items children →
                hiface m = Element ∧ (S (rk m) ≤ fuel)%nat).
      { intros m Hm. apply Hchildren in Hm as (He & m0 & Hm0 & Hc).
        split; [done|].
        pose proof (ranked_contains w rk m0 m Hrk Hc).
        destruct (Hthis m0 Hm0). lia. }
      destruct fuel as [|fuel'].
      + apply Z.eqb_neq in Hlen. unfold length_of in Hlen.
        destruct (items children) as [|m l] eqn:Hitems; [done|].
        destruct (Hkids m); [left | lia].
      + destruct (IH fuel' (Nat.lt_succ_diag_r _) children w Hok Hrk)
          as (w1 & Hrun & Hok1 & Hsh1 & Hun1).
        { intros m Hm. destruct (Hkids m Hm). split; [done | lia]. }
        exists w1. split; [by rewrite (bind_Ok _ _ _ _ _ Hrun)|].
        split; [done|]. split; [done|].
        intros x Hx. apply Hun1. by left. }
  destruct Hrec as (w1 & Hrec & Hok1 & Hsh1 & Hun1).
  destruct (detach_spec this w1 Hok1) as (w2 & Hdet & Hok2 & Hsh2).
  destruct (cleanUp_spec this w2 Hok2) as (w3 & Hcl & Hok3 & Hsh3 & Hpurged).
  destruct (remove_nodes_spec this w3 Hok3) as (w4 & Hrm & Hok4 & Hsh4 & Hnop).
  { intros m Hm. destruct (Hthis m Hm) as [He _].
    unfold isChildNode. by rewrite He. }
  exists w4. split; [|split; [done|split]].
  - rewrite remove_unfold, (bind_Ok _ _ _ _ _ Hfind).
    rewrite (bind_Ok _ _ _ _ _ Hrec).
    by rewrite (bind_Ok _ _ _ _ _ Hdet), (bind_Ok _ _ _ _ _ Hcl),
               (bind_Ok _ _ _ _ _ Hrm).
  - eauto using shrinks_trans.
  - intros x [Hx|Hx].
    + split; [by apply Hnop|].
      eapply lookup_weaken_None; [by apply Hpurged | apply Hsh4].
    + apply (shrinks_unlinked w1); [eauto using shrinks_trans|].
      apply Hun1. by apply Hchildren.
Qed.

End Remove.

Section RemoveClaim.
Context `{Platform}.


End RemoveClaim.

Lemma example_tree_ok : tree_ok Example.w1.
Proof. apply (bool_decide_unpack _). by vm_compute. Qed.

Lemma example_ranked : ranked Example.w1 Example.rk.
Proof. apply (bool_decide_unpack _). by vm_compute. Qed.


(** ** The private data store *)

(** The node tree is the same in both worlds. *)
Lemma same_tree_ok w w' :
  parentNode w' = parentNode w → childNodes w' = childNodes w →
  tree_ok w → tree_ok w'.
Proof. unfold tree_ok. by intros -> ->. Qed.

Lemma same_tree_ranked w w' rk :
  childNodes w' = childNodes w → ranked w rk → ranked w' rk.
Proof. unfold ranked. by intros ->. Qed.

(** [$(element).data()]: the record of the element, made when absent. *)
Lemma data_get_record e w :
  hiface e = Element →
  ∃ r w', data_get None (dollar_node e) w = Ok (VRecord r) w'
          ∧ privateData w' !! e = Some r
          ∧ parentNode w' = parentNode w ∧ childNodes w' = childNodes w.
Proof.
  intros He. rewrite (dollar_node_element e He). unfold data_get. simpl.
  unfold bind, read, modify.
  destruct (privateData w !! e) as [r|] eqn:Hr.
  - exists r, w. rewrite bool_decide_eq_true_2 by eauto. simpl.
    by rewrite Hr.
  - eexists _, _. rewrite bool_decide_eq_false_2 by (by intros [? ?]).
    simpl. rewrite lookup_insert_eq.
    split; [reflexivity|]. split; [apply lookup_insert_eq|]. by split.
Qed.

Lemma data_get_key e key r w :
  hiface e = Element → privateData w !! e = Some r →
  data_get (Some key) (dollar_node e) w = Ok (record_get r key w) w.
Proof.
  intros He Hr. rewrite (dollar_node_element e He). unfold data_get. simpl.
  unfold bind, read. rewrite bool_decide_eq_true_2 by eauto. simpl.
  by rewrite Hr.
Qed.

Lemma data_get_purged e key w :
  hiface e = Element → privateData w !! e = None →
  ∃ w', data_get (Some key) (dollar_node e) w = Ok VUndefined w'.
Proof.
  intros He Hr. rewrite (dollar_node_element e He). unfold data_get. simpl.
  unfold bind, read, modify.
  rewrite bool_decide_eq_false_2 by (rewrite Hr; by intros [? ?]).
  simpl. rewrite lookup_insert_eq. eexists. f_equal.
  unfold record_get. simpl. by rewrite lookup_insert_eq.
Qed.

(** [data(key, value)] on a collection of one element *)
Lemma data_set_one e sel par key value w :
  hiface e = Element → is_undefined value = false →
  ∃ r w', data (Some key) value (mkDOM [e] sel par) w
          = Ok (VDOM (mkDOM [e] sel par)) w'
          ∧ privateData w' !! e = Some r
          ∧ record_get r key w' = value
          ∧ parentNode w' = parentNode w ∧ childNodes w' = childNodes w.
Proof.
  intros He Hv.
  destruct (data_get_record e w He) as (r & w1 & Hget & Hr & Hp & Hc).
  exists r, (record_set r key value w1). split; [|split; [|split]].
  - unfold data, each. rewrite Hv. simpl items.
    rewrite forEach_cons. cbv beta.
    erewrite bind_Ok; [reflexivity|].
    erewrite bind_Ok; [reflexivity|].
    by rewrite (bind_Ok _ _ _ _ _ Hget).
  - exact Hr.
  - unfold record_get, record_set. simpl.
    rewrite lookup_insert_eq. simpl. by rewrite lookup_insert_eq.
  - by split.
Qed.

Section DataClaim.
Context `{Platform}.

(** C3. Private data is keyed by the element, not by the collection:
    after [data(key, value)] on a collection of one element [e], a fresh
    [$(e)] reads [value] back with [data(key)]; after [remove()] on the
    element's collection the record is gone from the store, and
    [data(key)] on a fresh [$(e)] returns [undefined]. *)
Theorem data_persists_until_removed (rk : handle → nat) (fuel : nat)
    (e : handle) (sel : jsval) (par : option DOM)
    (key : jsstring) (value : jsval) (w : world) :
  hiface e = Element → is_undefined value = false →
  tree_ok w → ranked w rk → (rk e ≤ fuel)%nat →
  ∃ w1 w2 w3,
    data (Some key) value (mkDOM [e] sel par) w
    = Ok (VDOM (mkDOM [e] sel par)) w1
    ∧ data (Some key) VUndefined (dollar_node e) w1 = Ok value w1
    ∧ remove (S fuel) (mkDOM [e] sel par) w1
      = Ok (truncate (mkDOM [e] sel par)) w2
    ∧ privateData w2 !! e = None
    ∧ data (Some key) VUndefined (dollar_node e) w2 = Ok VUndefined w3.
Proof.
  intros He Hv Hok Hrk Hfuel.
  destruct (data_set_one e sel par key value w He Hv)
    as (r & w1 & Hset & Hr & Hval & Hp & Hc).
  destruct (remove_unlinks rk fuel (mkDOM [e] sel par) w1)
    as (w2 & Hrm & _ & _ & Hun).
  { by apply (same_tree_ok w). }
  { by apply (same_tree_ranked w). }
  { intros m Hm. by apply list_elem_of_singleton in Hm as ->. }
  destruct (Hun e) as [_ Hpurged]; [left; simpl; left|].
  destruct (data_get_purged e key w2 He Hpurged) as (w3 & Hget).
  exists w1, w2, w3. split; [exact Hset|]. split; [|split; [exact Hrm|]].
  - unfold data. simpl. by rewrite (data_get_key e key r w1 He Hr), Hval.
  - split; [exact Hpurged|]. exact Hget.
Qed.

End DataClaim.

Lemma example_tree_ok0 : tree_ok Example.w0.
Proof. apply (bool_decide_unpack _). by vm_compute. Qed.

Lemma example_ranked0 : ranked Example.w0 Example.rk.
Proof. apply (bool_decide_unpack _). by vm_compute. Qed.

Lemma data_persists_until_removed_witness :
  ∃ w1 w2 w3,
    data (Some (js "x")) (VNum 123) (dollar_node Example.div) Example.w0
    = Ok (VDOM (dollar_node Example.div)) w1
    ∧ data (Some (js "x")) VUndefined (dollar_node Example.div) w1
      = Ok (VNum 123) w1
    ∧ @remove Example.platform 8 (dollar_node Example.div) w1
      = Ok (truncate (dollar_node Example.div)) w2
    ∧ privateData w2 !! Example.div = None
    ∧ data (Some (js "x")) VUndefined (dollar_node Example.div) w2
      = Ok VUndefined w3.
Proof.
  apply (@data_persists_until_removed Example.platform Example.rk 7%nat
           Example.div (VNode Example.div) (Some dollar_document)
           (js "x") (VNum 123) Example.w0).
  - reflexivity.
  - reflexivity.
  - exact example_tree_ok0.
  - exact example_ranked0.
  - vm_compute. lia.
Defined.

(** * Further properties of the code *)

(** ** [parseSpaces] *)

Lemma split_go_concat (s : jsstring) :
  ∀ sep cur,
    List.concat (split_go sep cur s) = rev cur ++ without_spaces s.
Proof.
  unfold without_spaces.
  induction s as [|c r IH]; intros sep cur; simpl.
  - by rewrite filter_nil.
  - rewrite filter_cons. destruct (isWhiteSpace c) eqn:Hc.
    + rewrite decide_False by congruence. destruct sep; simpl; by rewrite IH.
    + rewrite decide_True by done. rewrite IH. simpl.
      by rewrite <- app_assoc.
Qed.

Lemma split_go_spaceless (s : jsstring) :
  ∀ sep cur, spaceless cur → Forall spaceless (split_go sep cur s).
Proof.
  induction s as [|c r IH]; intros sep cur Hcur; simpl.
  - constructor; [|constructor]. unfold spaceless. by apply Forall_rev.
  - destruct (isWhiteSpace c) eqn:Hc.
    + destruct sep; [by apply IH|].
      constructor; [unfold spaceless; by apply Forall_rev|].
      apply IH. constructor.
    + apply IH. by constructor.
Qed.

Lemma ends_well_tail c r : ends_well (c :: r) → ends_well r.
Proof.
  intros Hend x Hx. apply Hend. destruct r; [done|]. exact Hx.
Qed.

Lemma ends_well_space c r :
  isWhiteSpace c = true → ends_well (c :: r) → r ≠ [].
Proof.
  intros Hc Hend ->. specialize (Hend c eq_refl). congruence.
Qed.

Lemma split_go_nonempty (s : jsstring) :
  ends_well s →
  (s ≠ [] → Forall (λ t, t ≠ []) (split_go true [] s))
  ∧ (∀ cur, cur ≠ [] → Forall (λ t, t ≠ []) (split_go false cur s)).
Proof.
  assert (Hrev : ∀ cur : jsstring, cur ≠ [] → rev cur ≠ []).
  { intros cur Hcur Hr. apply Hcur.
    by rewrite <- (rev_involutive cur), Hr. }
  induction s as [|c r IH]; intros Hend.
  - split; [done|]. intros cur Hcur. simpl. constructor; [auto | constructor].
  - pose proof (ends_well_tail c r Hend) as Hr.
    destruct (IH Hr) as [IHsep IHcur]. split.
    + intros _. simpl. destruct (isWhiteSpace c) eqn:Hc.
      * apply IHsep. by apply (ends_well_space c).
      * by apply IHcur.
    + intros cur Hcur. simpl. destruct (isWhiteSpace c) eqn:Hc.
      * constructor; [auto|]. apply IHsep. by apply (ends_well_space c).
      * by apply IHcur.
Qed.

Lemma split_go_not_nil (s : jsstring) :
  ∀ sep cur, split_go sep cur s ≠ [].
Proof.
  induction s as [|c r IH]; intros sep cur; simpl; [done|].
  destruct (isWhiteSpace c); [destruct sep|]; auto.
Qed.

Lemma trimStart_split (s : jsstring) :
  ∃ p, s = p ++ trimStart s ∧ blank p.
Proof.
  induction s as [|c r (p & Hp & Hb)]; simpl.
  - exists []. split; [done | constructor].
  - destruct (isWhiteSpace c) eqn:Hc.
    + exists (c :: p). split; [simpl; congruence | by constructor].
    + exists []. split; [done | constructor].
Qed.

Lemma trimStart_head (s : jsstring) c r :
  trimStart s = c :: r → isWhiteSpace c = false.
Proof.
  induction s as [|x s IH]; simpl; [done|].
  destruct (isWhiteSpace x) eqn:Hx; [exact IH|]. by intros [= <- _].
Qed.

Lemma trimStart_not_blank (s : jsstring) : ¬ blank s → trimStart s ≠ [].
Proof.
  intros Hs Ht. apply Hs. destruct (trimStart_split s) as (p & Hp & Hb).
  rewrite Ht, app_nil_r in Hp. by subst.
Qed.

Lemma blank_without_spaces (p : jsstring) : blank p → without_spaces p = [].
Proof.
  unfold without_spaces.
  induction 1 as [|c p Hc _ IH]; [done|].
  rewrite filter_cons, decide_False by congruence. exact IH.
Qed.

(** [trim] keeps what is not white space; what it leaves starts and
    ends with something else, when anything is left. *)
Lemma trim_spec (s : jsstring) :
  without_spaces (trim s) = without_spaces s
  ∧ ends_well (trim s)
  ∧ (∀ c r, trim s = c :: r → isWhiteSpace c = false)
  ∧ (¬ blank s → trim s ≠ []).
Proof.
  unfold trim.
  destruct (trimStart_split s) as (p & Hp & Hbp).
  pose proof (trimStart_head s) as Hhead.
  pose proof (trimStart_not_blank s) as Hnb.
  remember (trimStart s) as t eqn:Et. clear Et.
  destruct (trimStart_split (rev t)) as (q & Hq & Hbq).
  pose proof (trimStart_head (rev t)) as Hhead'.
  remember (trimStart (rev t)) as u eqn:Eu. clear Eu.
  assert (Ht : t = rev u ++ rev q).
  { by rewrite <- (rev_involutive t), Hq, rev_app_distr. }
  assert (Hrq : blank (rev q)) by (by apply Forall_rev).
  split; [|split; [|split]].
  - subst s t. unfold without_spaces.
    rewrite !filter_app.
    fold (without_spaces p). fold (without_spaces (rev q)).
    by rewrite (blank_without_spaces p Hbp),
               (blank_without_spaces (rev q) Hrq), app_nil_r.
  - intros c Hc. destruct u as [|x u']; [done|].
    simpl in Hc. rewrite last_snoc in Hc. injection Hc as <-.
    by apply (Hhead' x u').
  - intros c r Hr. rewrite Hr in Ht.
    destruct t as [|x t']; [done|].
    simpl in Ht. injection Ht as -> _.
    by apply (Hhead c t').
  - intros Hs Hu. specialize (Hnb Hs).
    assert (Hu' : u = []).
    { by rewrite <- (rev_involutive u), Hu. }
    subst u. simpl in Ht.
    destruct t as [|x t']; [done|].
    pose proof (Hhead x t' eq_refl) as Hx.
    rewrite <- Ht in Hrq. inversion Hrq; congruence.
Qed.

Lemma parseSpaces_tokens_aux (str : jsstring) :
  Forall spaceless (parseSpaces str)
  ∧ parseSpaces str ≠ []
  ∧ List.concat (parseSpaces str) = without_spaces str
  ∧ (¬ blank str → Forall (λ t, t ≠ []) (parseSpaces str)).
Proof.
  destruct (trim_spec str) as (Hw & Hend & Hhead & Hne).
  unfold parseSpaces, split_spaces. split; [|split; [|split]].
  - apply split_go_spaceless. constructor.
  - apply split_go_not_nil.
  - by rewrite split_go_concat, Hw.
  - intros Hs. specialize (Hne Hs).
    destruct (trim str) as [|c r] eqn:Ht; [done|].
    simpl. rewrite (Hhead c r eq_refl).
    apply (split_go_nonempty r); [|done].
    by apply (ends_well_tail c).
Qed.

(** X1. The tokens of [parseSpaces] hold no white space, there is at
    least one, and together they are the string without its white space,
    in order.  When the string holds anything but white space, no token
    is empty. *)
Theorem parseSpaces_tokens (str : jsstring) :
  Forall spaceless (parseSpaces str)
  ∧ parseSpaces str ≠ []
  ∧ List.concat (parseSpaces str) = without_spaces str
  ∧ (¬ blank str → Forall (λ t, t ≠ []) (parseSpaces str)).
Proof. apply parseSpaces_tokens_aux. Qed.

Lemma parseSpaces_tokens_witness :
  Forall (λ t : jsstring, t ≠ []) (parseSpaces (js " a  b ")).
Proof.
  apply parseSpaces_tokens. intros Hb. inversion Hb as [|? ? _ Hr].
  inversion Hr as [|? ? Ha _]. vm_compute in Ha. discriminate.
Defined.

(** ** [formatCssRule] *)

(** Induction along the search of [hyphenate]. *)
Lemma hyphenate_ind (P : jsstring → Prop) :
  P [] → (∀ a, P [a]) →
  (∀ a b r, is_lower_az a && is_upper_AZ b = true → P r → P (a :: b :: r)) →
  (∀ a b r, is_lower_az a && is_upper_AZ b = false →
            P (b :: r) → P (a :: b :: r)) →
  ∀ s, P s.
Proof.
  intros Hnil Hone Hhit Hmiss s.
  assert (H : ∀ n (s : jsstring), (length s ≤ n)%nat → P s).
  { clear s. induction n as [|n IH]; intros s Hlen.
    - destruct s; [exact Hnil | simpl in Hlen; lia].
    - destruct s as [|a [|b r]]; [exact Hnil | apply Hone |].
      simpl in Hlen.
      destruct (is_lower_az a && is_upper_AZ b) eqn:Hab.
      + apply Hhit; [exact Hab|]. apply IH. lia.
      + apply Hmiss; [exact Hab|]. apply IH. simpl. lia. }
  by apply (H (length s)).
Qed.

Lemma hyphenate_hit a b r :
  is_lower_az a && is_upper_AZ b = true →
  hyphenate (a :: b :: r) = a :: 45%N :: b :: hyphenate r.
Proof. intros Hab. simpl. by rewrite Hab. Qed.

Lemma hyphenate_miss a b r :
  is_lower_az a && is_upper_AZ b = false →
  hyphenate (a :: b :: r) = a :: hyphenate (b :: r).
Proof. intros Hab. simpl. by rewrite Hab. Qed.

Lemma hyphenate_ascii (s : jsstring) : is_ascii s → is_ascii (hyphenate s).
Proof.
  unfold is_ascii. induction s as [| a | a b r Hab IH | a b r Hab IH]
    using hyphenate_ind; intros Hs; [done | done | |].
  - rewrite hyphenate_hit by done.
    inversion Hs as [|? ? Ha Hs']. inversion Hs' as [|? ? Hb Hr].
    constructor; [done|]. constructor; [lia|].
    constructor; [done|]. by apply IH.
  - rewrite hyphenate_miss by done.
    inversion Hs as [|? ? Ha Hs']. constructor; [done | by apply IH].
Qed.

Lemma hyphenate_no_capital (s : jsstring) : no_capital s → hyphenate s = s.
Proof.
  unfold no_capital. induction s as [| a | a b r Hab IH | a b r Hab IH]
    using hyphenate_ind; intros Hs; [done | done | |].
  - inversion Hs as [|? ? Ha Hs']. inversion Hs' as [|? ? Hb Hr].
    rewrite Hb, andb_false_r in Hab. discriminate.
  - rewrite hyphenate_miss by done.
    inversion Hs as [|? ? Ha Hs']. by rewrite IH.
Qed.

Lemma hyphenate_without_hyphens (s : jsstring) :
  without_hyphens (hyphenate s) = without_hyphens s.
Proof.
  unfold without_hyphens. induction s as [| a | a b r Hab IH | a b r Hab IH]
    using hyphenate_ind; [done | done | |].
  - rewrite hyphenate_hit by done.
    rewrite (filter_cons _ a), (filter_cons _ 45%N), (filter_cons _ b).
    rewrite (filter_cons _ a (b :: r)), (filter_cons _ b r).
    rewrite IH. rewrite (decide_False (P := 45%N ≠ 45%N)) by auto.
    reflexivity.
  - rewrite hyphenate_miss by done.
    by rewrite (filter_cons _ a), (filter_cons _ a (b :: r)), IH.
Qed.

Lemma ascii_lower_spec (c : N) :
  is_upper_AZ (ascii_lower c) = false
  ∧ ((c < 128)%N → (ascii_lower c < 128)%N)
  ∧ (is_upper_AZ c = false → ascii_lower c = c)
  ∧ (ascii_lower c = 45%N ↔ c = 45%N).
Proof.
  unfold ascii_lower, is_upper_AZ.
  destruct (N.leb_spec 65 c), (N.leb_spec c 90); simpl;
    repeat split; try done; try lia;
    try (apply andb_false_iff; rewrite !N.leb_gt; lia);
    try (rewrite andb_false_iff, !N.leb_gt; lia).
Qed.

Lemma ascii_lower_no_capital (s : jsstring) : no_capital (ascii_lower <$> s).
Proof.
  unfold no_capital. apply Forall_fmap, Forall_forall. intros c _.
  apply ascii_lower_spec.
Qed.

Lemma ascii_lower_fixed (s : jsstring) :
  no_capital s → ascii_lower <$> s = s.
Proof.
  induction 1 as [|c s Hc _ IH]; [done|].
  rewrite fmap_cons, IH. f_equal. by apply ascii_lower_spec.
Qed.

Lemma ascii_lower_ascii (s : jsstring) : is_ascii s → is_ascii (ascii_lower <$> s).
Proof.
  unfold is_ascii. intros Hs. apply Forall_fmap.
  eapply Forall_impl; [exact Hs|]. intros c Hc. by apply ascii_lower_spec.
Qed.

Lemma ascii_lower_without_hyphens (s : jsstring) :
  without_hyphens (ascii_lower <$> s) = ascii_lower <$> without_hyphens s.
Proof.
  unfold without_hyphens. induction s as [|c s IH]; [done|].
  rewrite fmap_cons, !filter_cons, IH.
  destruct (ascii_lower_spec c) as (_ & _ & _ & H45).
  destruct (decide (c ≠ 45%N)) as [Hc|Hc].
  - rewrite decide_True by (by rewrite H45). done.
  - rewrite decide_False; [done|]. rewrite H45. done.
Qed.

(** X2. On a string of code units below 128, [formatCssRule] gives a
    string without capitals that, hyphens aside, is the lower-cased
    input; a rule name without capitals comes back as it is, so the
    function is idempotent. *)
Theorem formatCssRule_ascii (toLowerCase : jsstring → jsstring)
    (str : jsstring) :
  lowers_ascii toLowerCase → is_ascii str →
  no_capital (formatCssRule toLowerCase str)
  ∧ without_hyphens (formatCssRule toLowerCase str)
    = ascii_lower <$> without_hyphens str
  ∧ (no_capital str → formatCssRule toLowerCase str = str)
  ∧ formatCssRule toLowerCase (formatCssRule toLowerCase str)
    = formatCssRule toLowerCase str.
Proof.
  intros Hlow Hstr. unfold formatCssRule.
  pose proof (hyphenate_ascii str Hstr) as Hh.
  rewrite (Hlow _ Hh).
  split; [apply ascii_lower_no_capital|]. split; [|split].
  - by rewrite ascii_lower_without_hyphens, hyphenate_without_hyphens.
  - intros Hno. by rewrite (hyphenate_no_capital str Hno), ascii_lower_fixed.
  - pose proof (ascii_lower_no_capital (hyphenate str)) as Hno.
    rewrite (hyphenate_no_capital _ Hno).
    rewrite (Hlow _ (ascii_lower_ascii _ Hh)).
    by rewrite (ascii_lower_fixed _ Hno).
Qed.

Lemma formatCssRule_ascii_witness :
  formatCssRule ascii_toLowerCase (js "backgroundColor")
  = js "background-color"
  ∧ formatCssRule ascii_toLowerCase
      (formatCssRule ascii_toLowerCase (js "backgroundColor"))
    = formatCssRule ascii_toLowerCase (js "backgroundColor").
Proof.
  split; [reflexivity|].
  apply formatCssRule_ascii.
  - intros s _. reflexivity.
  - vm_compute. repeat constructor.
Defined.

(** ** [add] *)

Lemma add_array_nil (this : DOM) : add (VArray []) this = this.
Proof. reflexivity. Qed.

Lemma add_array_cons (x : jsval) (l : list jsval) (this : DOM) :
  add (VArray (x :: l)) this = add (VArray l) (add x this).
Proof. reflexivity. Qed.

Lemma add_array_app (l1 l2 : list jsval) (this : DOM) :
  add (VArray (l1 ++ l2)) this = add (VArray l2) (add (VArray l1) this).
Proof.
  revert this. induction l1 as [|x l1 IH]; intros this; [done|].
  rewrite <- app_comm_cons, !add_array_cons. apply IH.
Qed.

(** X3. [add] flattens: an array adds its items from left to right, an
    array nested in an array (to any depth) adds what its items would
    add in its place, and a collection adds what the array of its
    members would. *)
Theorem add_flattens (this : DOM) :
  (∀ l1 l2, add (VArray (l1 ++ l2)) this
            = add (VArray l2) (add (VArray l1) this))
  ∧ (∀ l1 l2 l3, add (VArray (l1 ++ VArray l2 :: l3)) this
                 = add (VArray (l1 ++ l2 ++ l3)) this)
  ∧ (∀ d, add (VDOM d) this = add (VArray (VNode <$> items d)) this).
Proof.
  split; [intros; apply add_array_app|]. split.
  - intros l1 l2 l3.
    by rewrite !add_array_app, add_array_cons.
  - intros d. rewrite add_array_nodes. simpl. apply foldl_add_node.
Qed.

(** X4. [add] only appends: whatever it is given, the members already
    there keep their positions, and the [selector] and [parent] of the
    collection stay as they were. *)
Theorem add_keeps_members (x : jsval) (this : DOM) :
  (∀ i h, items this !! i = Some h → items (add x this) !! i = Some h)
  ∧ (length (items this) ≤ length (items (add x this)))%nat
  ∧ selector (add x this) = selector this
  ∧ parent (add x this) = parent this.
Proof.
  destruct (add_spec x this) as (l & -> & _). simpl.
  split; [|split; [|done]].
  - intros i h Hi. by apply lookup_app_l_Some.
  - rewrite length_app. lia.
Qed.

Lemma add_keeps_members_witness :
  items (add (VArray [VNode Example.span; VNum 3])
             (add (VNode Example.div) (dollar_node Example.html)))
    !! 1%nat = Some Example.div.
Proof. by apply add_keeps_members. Defined.

(** ** [find] and the factory *)

Lemma filter_all {A} (P : A → Prop) `{∀ x, Decision (P x)} (l : list A) :
  Forall P l → filter P l = l.
Proof.
  induction 1 as [|x l Hx _ IH]; [done|].
  by rewrite filter_cons, decide_True, IH.
Qed.

Section Find.
Context `{Platform}.

(** The query reads the tree and returns elements. *)
Lemma querySelectorAll_reads fuel element selector w :
  match querySelectorAll fuel element selector w with
  | Ok l w' => w' = w ∧ Forall (λ x, hiface x = Element) l
  | Throw e w' => w' = w
  | OutOfFuel => True
  end.
Proof.
  unfold querySelectorAll. destruct (isParentNode element); [|done].
  destruct (compile_selector selector) as [matches|]; [|done].
  destruct (descendants fuel w element) as [l|]; [|done].
  split; [done|]. apply Forall_forall. intros x Hx.
  apply list_elem_of_filter in Hx as [Hx _].
  apply andb_prop_elim in Hx as [Hx _]. by apply bool_decide_unpack in Hx.
Qed.

(** The loop of [find], from any collection [acc] gathered so far. *)
Lemma find_loop fuel sel w (l : list handle) :
  ∀ i acc,
    match forEach (λ element (_ : nat) collection,
                     let* elements := querySelectorAll fuel element sel in
                     ret (add (VArray (VNode <$> elements)) collection))
                  l i acc w with
    | Ok acc' w' =>
        w' = w
        ∧ ∃ ls, Forall2 (λ m lm, querySelectorAll fuel m sel w = Ok lm w)
                        l ls
                ∧ acc' = mkDOM (items acc ++ List.concat ls)
                               (selector acc) (parent acc)
    | Throw e w' =>
        w' = w
        ∧ ¬ ∃ ls, Forall2 (λ m lm, querySelectorAll fuel m sel w
                                    = Ok lm w) l ls
    | OutOfFuel =>
        ¬ ∃ ls, Forall2 (λ m lm, querySelectorAll fuel m sel w = Ok lm w)
                        l ls
    end.
Proof.
  induction l as [|m l IH]; intros i acc.
  - simpl. split; [done|]. exists []. split; [constructor|].
    simpl. rewrite app_nil_r. by destruct acc.
  - rewrite forEach_cons. cbv beta. unfold bind at 1. unfold bind at 1.
    pose proof (querySelectorAll_reads fuel m sel w) as Hq.
    destruct (querySelectorAll fuel m sel w) as [lm w1|e w1|] eqn:Eq.
    + destruct Hq as [-> Helts]. unfold ret at 1.
      specialize (IH (S i) (add (VArray (VNode <$> lm)) acc)).
      rewrite add_array_nodes in IH.
      rewrite (filter_all _ lm) in IH
        by (eapply Forall_impl; [exact Helts | apply element_allowed]).
      rewrite add_array_nodes.
      rewrite (filter_all _ lm)
        by (eapply Forall_impl; [exact Helts | apply element_allowed]).
      destruct (forEach _ l (S i) _ w) as [acc' w'|e w'|].
      * destruct IH as (-> & ls & Hls & ->). split; [done|].
        exists (lm :: ls). split; [by constructor|].
        simpl. by rewrite app_assoc.
      * destruct IH as (-> & Hno). split; [done|].
        intros (ls & Hls). inversion Hls as [|? lm' ? ls' Hm Hrest]; subst.
        apply Hno. by exists ls'.
      * intros (ls & Hls). inversion Hls as [|? lm' ? ls' Hm Hrest]; subst.
        apply IH. by exists ls'.
    + subst w1. split; [done|].
      intros (ls & Hls). inversion Hls as [|? lm' ? ls' Hm Hrest]; subst.
      congruence.
    + intros (ls & Hls). inversion Hls as [|? lm' ? ls' Hm Hrest]; subst.
      congruence.
Qed.

End Find.

Section FindProperties.
Context `{Platform}.

Lemma find_outcome fuel sel this w :
  match find fuel sel this w with
  | Ok found w' =>
      w' = w
      ∧ ∃ ls, Forall2 (λ m lm, querySelectorAll fuel m sel w = Ok lm w)
                      (items this) ls
              ∧ found = mkDOM (List.concat ls) (VStr []) (Some dollar_document)
  | Throw e w' =>
      w' = w
      ∧ ¬ ∃ ls, Forall2 (λ m lm, querySelectorAll fuel m sel w = Ok lm w)
                        (items this) ls
  | OutOfFuel =>
      ¬ ∃ ls, Forall2 (λ m lm, querySelectorAll fuel m sel w = Ok lm w)
                      (items this) ls
  end.
Proof.
  unfold find, each.
  exact (find_loop fuel sel w (items this) 0%nat dollar_nothing).
Qed.

Lemma find_elements fuel sel this w found w' :
  find fuel sel this w = Ok found w' →
  Forall (λ x, hiface x = Element) (items found).
Proof.
  intros Hrun. pose proof (find_outcome fuel sel this w) as Hout.
  rewrite Hrun in Hout. destruct Hout as (_ & ls & Hls & ->). simpl.
  apply Forall_forall. intros x Hx.
  apply list_elem_of_In, in_concat in Hx as (lm & Hlm & Hx).
  apply list_elem_of_In, list_elem_of_lookup in Hlm as [i Hi].
  destruct (Forall2_lookup_r _ _ _ _ _ Hls Hi) as (m & _ & Hm).
  pose proof (querySelectorAll_reads fuel m sel w) as Hq.
  rewrite Hm in Hq. destruct Hq as [_ Hq]. rewrite Forall_forall in Hq.
  by apply Hq, list_elem_of_In.
Qed.

(** X5. [find] only reads: whether it returns or throws, the world is
    as before.  What it returns holds elements only, and starts from
    [$()].  On an empty collection it returns the empty collection
    without throwing, whatever the selector is. *)
Theorem find_reads (fuel : nat) (sel : jsstring) (this : DOM) (w : world) :
  match find fuel sel this w with
  | Ok found w' =>
      w' = w
      ∧ Forall (λ x, hiface x = Element) (items found)
      ∧ selector found = VStr [] ∧ parent found = Some dollar_document
  | Throw e w' => w' = w ∧ items this ≠ []
  | OutOfFuel => items this ≠ []
  end.
Proof.
  pose proof (find_outcome fuel sel this w) as Hout.
  pose proof (find_elements fuel sel this w) as Hel.
  destruct (find fuel sel this w) as [found w'|e w'|].
  - destruct Hout as (-> & ls & _ & ->). split; [done|].
    split; [by eapply Hel|done].
  - destruct Hout as [-> Hno]. split; [done|]. intros Hnil.
    apply Hno. exists []. rewrite Hnil. constructor.
  - intros Hnil. apply Hout. exists []. rewrite Hnil. constructor.
Qed.

(** X6. [find] works member by member and keeps duplicates: on a
    collection whose members are those of [this1] followed by those of
    [this2], it returns exactly when it returns on both, and then with
    the matches of [this1] followed by the matches of [this2]. *)
Theorem find_app (fuel : nat) (sel : jsstring) (this this1 this2 : DOM)
    (w : world) :
  items this = items this1 ++ items this2 →
  ∀ found w',
    find fuel sel this w = Ok found w'
    ↔ ∃ found1 found2,
        find fuel sel this1 w = Ok found1 w
        ∧ find fuel sel this2 w = Ok found2 w
        ∧ w' = w
        ∧ found = mkDOM (items found1 ++ items found2)
                        (VStr []) (Some dollar_document).
Proof.
  intros Hitems found w'.
  pose proof (find_outcome fuel sel this w) as Hout.
  pose proof (find_outcome fuel sel this1 w) as Hout1.
  pose proof (find_outcome fuel sel this2 w) as Hout2.
  rewrite Hitems in Hout. split.
  - intros Hrun. rewrite Hrun in Hout.
    destruct Hout as (-> & ls & Hls & ->).
    apply Forall2_app_inv_l in Hls as (ls1 & ls2 & Hls1 & Hls2 & ->).
    destruct (find fuel sel this1 w) as [f1 w1|e w1|].
    2: { destruct Hout1 as [_ Hno]. destruct Hno. by exists ls1. }
    2: { destruct Hout1. by exists ls1. }
    destruct (find fuel sel this2 w) as [f2 w2|e w2|].
    2: { destruct Hout2 as [_ Hno]. destruct Hno. by exists ls2. }
    2: { destruct Hout2. by exists ls2. }
    destruct Hout1 as (-> & ls1' & Hls1' & ->).
    destruct Hout2 as (-> & ls2' & Hls2' & ->).
    exists (mkDOM (List.concat ls1') (VStr []) (Some dollar_document)),
           (mkDOM (List.concat ls2') (VStr []) (Some dollar_document)).
    split; [done|]. split; [done|]. split; [done|]. simpl.
    assert (ls1' = ls1) as ->.
    { eapply Forall2_unique; [exact Hls1' | exact Hls1 |].
      intros m l1 l2 E1 E2. congruence. }
    assert (ls2' = ls2) as ->.
    { eapply Forall2_unique; [exact Hls2' | exact Hls2 |].
      intros m l1 l2 E1 E2. congruence. }
    by rewrite concat_app.
  - intros (f1 & f2 & Hrun1 & Hrun2 & -> & ->).
    rewrite Hrun1 in Hout1. rewrite Hrun2 in Hout2.
    destruct Hout1 as (_ & ls1 & Hls1 & ->).
    destruct Hout2 as (_ & ls2 & Hls2 & ->).
    pose proof (Forall2_app Hls1 Hls2) as Hls.
    destruct (find fuel sel this w) as [f w1|e w1|].
    2: { destruct Hout as [_ Hno]. destruct Hno. by eexists. }
    2: { destruct Hout. by eexists. }
    destruct Hout as (-> & ls & Hls' & ->). simpl.
    assert (ls = ls1 ++ ls2) as ->.
    { eapply Forall2_unique; [exact Hls' | exact Hls |].
      intros m l1 l2 E1 E2. congruence. }
    by rewrite concat_app.
Qed.

End FindProperties.

Lemma find_app_witness :
  @find Example.platform 9 (js "*")
        (add (VNode Example.div) (dollar_node Example.html)) Example.w0
  = Ok (mkDOM [Example.div; Example.span; Example.span]
              (VStr []) (Some dollar_document)) Example.w0.
Proof.
  apply (@find_app Example.platform 9 (js "*")
           (add (VNode Example.div) (dollar_node Example.html))
           (dollar_node Example.html) (dollar_node Example.div) Example.w0).
  - reflexivity.
  - eexists _, _. split; [by vm_compute|]. split; [by vm_compute|]. done.
Defined.

Section FindStar.
Context `{Platform}.

Lemma querySelectorAll_star_parent w rk fuel m :
  ranked w rk → isParentNode m = true → (rk m < fuel)%nat →
  ∃ l, querySelectorAll fuel m (js "*") w = Ok l w
       ∧ ∀ x, x ∈ l ↔ hiface x = Element ∧ contains w m x.
Proof.
  intros Hrk Hm Hfuel.
  destruct (descendants_spec w rk Hrk fuel m Hfuel) as (l & Hl & Hspec).
  unfold querySelectorAll, compile_selector. rewrite Hm.
  destruct (decide (js "*" = js "*")); [|done].
  rewrite Hl. eexists. split; [reflexivity|].
  intros x. rewrite list_elem_of_filter, Hspec, andb_true_r.
  by rewrite bool_decide_spec.
Qed.

Lemma find_star_parents w rk fuel this :
  ranked w rk →
  (∀ m, m ∈ items this → isParentNode m = true ∧ (rk m < fuel)%nat) →
  ∃ children,
    find fuel (js "*") this w = Ok children w
    ∧ ∀ x, x ∈ items children
           ↔ hiface x = Element ∧ ∃ m, m ∈ items this ∧ contains w m x.
Proof.
  intros Hrk Hthis.
  assert (Hls : ∃ ls,
    Forall2 (λ m lm, querySelectorAll fuel m (js "*") w = Ok lm w
                     ∧ ∀ x, x ∈ lm ↔ hiface x = Element ∧ contains w m x)
            (items this) ls).
  { induction (items this) as [|m l IH]; [exists []; constructor|].
    destruct IH as (ls & Hls); [intros m' Hm'; apply Hthis; by right|].
    destruct (Hthis m) as [Hm Hfuel]; [left|].
    destruct (querySelectorAll_star_parent w rk fuel m Hrk Hm Hfuel)
      as (lm & Hq & Hspec).
    exists (lm :: ls). by constructor. }
  destruct Hls as (ls & Hls).
  pose proof (find_outcome fuel (js "*") this w) as Hout.
  assert (Hls' : Forall2 (λ m lm, querySelectorAll fuel m (js "*") w
                                  = Ok lm w) (items this) ls).
  { eapply Forall2_impl; [exact Hls|]. by intros m lm [? _]. }
  destruct (find fuel (js "*") this w) as [found w'|e w'|].
  2: { destruct Hout as [_ Hno]. destruct Hno. by exists ls. }
  2: { destruct Hout. by exists ls. }
  destruct Hout as (-> & ls2 & Hls2 & ->).
  assert (ls2 = ls) as ->.
  { eapply Forall2_unique; [exact Hls2 | exact Hls' |].
    intros m l1 l2 E1 E2. congruence. }
  eexists. split; [reflexivity|]. simpl. intros x. split.
  - intros Hx. apply list_elem_of_In, in_concat in Hx as (lm & Hlm & Hx).
    apply list_elem_of_In, list_elem_of_lookup in Hlm as [i Hi].
    destruct (Forall2_lookup_r _ _ _ _ _ Hls Hi) as (m & Hm & _ & Hspec).
    destruct (proj1 (Hspec x)) as [Hel Hcon]; [by apply list_elem_of_In|].
    split; [done|]. exists m. split; [|done].
    apply list_elem_of_lookup. by exists i.
  - intros (Hx & m & Hm & Hc).
    apply list_elem_of_lookup in Hm as [i Hi].
    destruct (Forall2_lookup_l _ _ _ _ _ Hls Hi) as (lm & Hlm & _ & Hspec).
    apply list_elem_of_In, in_concat. exists lm. split.
    + apply list_elem_of_In, list_elem_of_lookup. by exists i.
    + apply list_elem_of_In, Hspec. by split.
Qed.

(** X7. In a tree without cycle, with fuel above the height below the
    members, [find('*')] on a collection of elements, documents or
    fragments returns, leaves the world as it is, and finds exactly the
    elements that are descendants of a member; text and comment nodes
    below a member are not found. *)
Theorem find_star_descendants (w : world) (rk : handle → nat) (fuel : nat)
    (this : DOM) :
  ranked w rk →
  (∀ m, m ∈ items this → isParentNode m = true ∧ (rk m < fuel)%nat) →
  ∃ children,
    find fuel (js "*") this w = Ok children w
    ∧ ∀ x, x ∈ items children
           ↔ hiface x = Element ∧ ∃ m, m ∈ items this ∧ contains w m x.
Proof. apply find_star_parents. Qed.

End FindStar.

Lemma find_star_descendants_witness :
  ∃ children,
    @find Example.platform 10 (js "*") dollar_document Example.w0
    = Ok children Example.w0
    ∧ Example.span ∈ items children ∧ Example.text ∉ items children.
Proof.
  destruct (@find_star_descendants Example.platform Example.w0 Example.rk
              10%nat dollar_document) as (children & Hrun & Hspec).
  - exact example_ranked0.
  - intros m Hm. apply list_elem_of_singleton in Hm as ->.
    split; [reflexivity | vm_compute; lia].
  - exists children. split; [exact Hrun|]. split.
    + apply Hspec. split; [reflexivity|]. exists document.
      split; [left|].
      eapply contains_below; [vm_compute; left|].
      eapply contains_below; [vm_compute; left|].
      apply contains_child. vm_compute. left.
    + intros Hx. apply Hspec in Hx as [Hx _]. discriminate.
Defined.

Lemma each_add_loop (l : list handle) :
  ∀ i acc w,
    forEach (λ element (_ : nat) this, ret (add (VNode element) this))
            l i acc w
    = Ok (mkDOM (items acc ++ filter (λ h, isElement (VNode h) = true) l)
                (selector acc) (parent acc)) w.
Proof.
  induction l as [|h l IH]; intros i acc w.
  - simpl. rewrite filter_nil, app_nil_r. by destruct acc.
  - rewrite forEach_cons. unfold bind, ret at 1. rewrite IH.
    rewrite add_VNode, add_node_spec. simpl.
    rewrite <- app_assoc. change (h :: l) with ([h] ++ l).
    by rewrite (filter_app _ [h] l).
Qed.

Section Factory.
Context `{Platform}.

Lemma init_with_string fuel s p w :
  init_with fuel (VStr s) (Some p) w
  = match find fuel s p w with
    | Ok found w' => Ok (mkDOM (items found) (VStr s) (Some p)) w'
    | Throw e w' => Throw e w'
    | OutOfFuel => OutOfFuel
    end.
Proof.
  unfold init_with. unfold bind at 1.
  pose proof (find_elements fuel s p w) as Hel.
  destruct (find fuel s p w) as [found w'|e w'|]; [|done|done].
  unfold each. rewrite each_add_loop. simpl.
  rewrite filter_all
    by (eapply Forall_impl; [by eapply Hel | apply element_allowed]).
  f_equal. f_equal. unfold or_empty. simpl.
  destruct (bool_decide (s = [])) eqn:Hs; [|done].
  apply bool_decide_eq_true_1 in Hs. by subst.
Qed.

(** X8. A string selector is resolved by [find] on the parent
    collection: [$(selector, parent)] has the members that
    [parent.find(selector)] returns, in the same order, and throws when
    it throws; without parent the search is in [$document].  The new
    collection records the selector string and the parent. *)
Theorem dollar_string (fuel : nat) (s : jsstring) (p : DOM) (w : world) :
  dollar fuel (VStr s) (VDOM p) w
  = match find fuel s p w with
    | Ok found w' => Ok (mkDOM (items found) (VStr s) (Some p)) w'
    | Throw e w' => Throw e w'
    | OutOfFuel => OutOfFuel
    end
  ∧ dollar fuel (VStr s) VUndefined w
    = match find fuel s dollar_document w with
      | Ok found w' =>
          Ok (mkDOM (items found) (VStr s) (Some dollar_document)) w'
      | Throw e w' => Throw e w'
      | OutOfFuel => OutOfFuel
      end.
Proof.
  split; unfold dollar, init; simpl; unfold bind at 1, ret at 1;
    apply init_with_string.
Qed.

End Factory.

(** ** [detach] *)

Lemma parentElement_unlink w x p y :
  parentElement w y = None → parentElement (unlink x p w) y = None.
Proof.
  unfold parentElement. simpl. intros Hy.
  destruct (decide (x = y)) as [->|Hne].
  - by rewrite lookup_delete_eq.
  - by rewrite lookup_delete_ne.
Qed.

Lemma detach_effect this w :
  ∃ w', detach this w = Ok this w'
        ∧ (∀ m, m ∈ items this → parentElement w' m = None)
        ∧ (∀ x, x ∉ items this → parentNode w' !! x = parentNode w !! x)
        ∧ (∀ m p, parentNode w !! m = Some p → hiface p ≠ Element →
                  parentNode w' !! m = Some p)
        ∧ privateData w' = privateData w ∧ records w' = records w
        ∧ attributes w' = attributes w ∧ classList w' = classList w.
Proof.
  unfold detach, each.
  destruct (forEach_establish
              (λ element,
                 let* p := read (λ w, parentElement w element) in
                 match p with
                 | Some p => removeChild p element
                 | None => ret tt
                 end)
              (λ w1,
                 (∀ x, x ∉ items this → parentNode w1 !! x = parentNode w !! x)
                 ∧ (∀ m p, parentNode w !! m = Some p → hiface p ≠ Element →
                           parentNode w1 !! m = Some p)
                 ∧ privateData w1 = privateData w ∧ records w1 = records w
                 ∧ attributes w1 = attributes w ∧ classList w1 = classList w)
              (λ m w1, parentElement w1 m = None) (items this))
    with (i := 0%nat) (w := w) as (w' & Hrun & HI & HQ & _).
  - intros x w1 Hx (Hout & Hroot & Hd & Hr & Ha & Hc).
    unfold bind, read.
    destruct (parentElement w1 x) as [p|] eqn:Hpe.
    + unfold parentElement in Hpe.
      destruct (parentNode w1 !! x) as [p'|] eqn:Hp; [|done].
      destruct (decide (hiface p' = Element)) as [Hel|]; [|done].
      injection Hpe as ->. unfold removeChild. rewrite Hp.
      destruct (decide (Some p = Some p)); [|done].
      eexists. split; [reflexivity|]. split; [|split].
      * simpl. split; [|split; [|done]].
        -- intros y Hy. rewrite lookup_delete_ne; [by apply Hout|].
           intros ->. done.
        -- intros m q Hm Hq. rewrite lookup_delete_ne; [by eapply Hroot|].
           intros ->. rewrite (Hroot m q Hm Hq) in Hp. congruence.
      * unfold parentElement. simpl. by rewrite lookup_delete_eq.
      * intros y. apply parentElement_unlink.
    + exists w1. split; [reflexivity|]. by split.
  - by repeat split.
  - exists w'. split; [by rewrite (bind_Ok _ _ _ _ _ Hrun)|].
    split; [exact HQ|]. exact HI.
Qed.

(** X9. [detach] always returns its collection.  Afterwards no member
    has a parent element; a member whose parent is no element (the root
    element, below the document) keeps that parent; the nodes outside the
    collection keep their parent; and the private data, attributes and
    class lists of every node are untouched. *)
Theorem detach_detaches (this : DOM) (w : world) :
  ∃ w', detach this w = Ok this w'
        ∧ (∀ m, m ∈ items this → parentElement w' m = None)
        ∧ (∀ x, x ∉ items this → parentNode w' !! x = parentNode w !! x)
        ∧ (∀ m p, parentNode w !! m = Some p → hiface p ≠ Element →
                  parentNode w' !! m = Some p)
        ∧ privateData w' = privateData w ∧ records w' = records w
        ∧ attributes w' = attributes w ∧ classList w' = classList w.
Proof. apply detach_effect. Qed.

Lemma detach_detaches_witness :
  ∃ w', detach (add (VNode Example.div) (dollar_node Example.html)) Example.w1
        = Ok (add (VNode Example.div) (dollar_node Example.html)) w'
        ∧ parentElement w' Example.div = None
        ∧ parentNode w' !! Example.html = Some document
        ∧ privateData w' = privateData Example.w1.
Proof.
  destruct (detach_detaches
              (add (VNode Example.div) (dollar_node Example.html)) Example.w1)
    as (w' & Hrun & Hnone & _ & Hroot & Hd & _).
  exists w'. split; [exact Hrun|]. split; [|split; [|exact Hd]].
  - apply Hnone. vm_compute. right. left.
  - apply Hroot; [reflexivity | discriminate].
Defined.

Lemma detach_noop this w :
  (∀ m, m ∈ items this → parentElement w m = None) → detach this w = Ok this w.
Proof.
  intros Hnone. unfold detach, each.
  assert (Hloop : ∀ l i, (∀ m, m ∈ l → parentElement w m = None) →
    forEach (λ element (_ : nat) (_ : unit),
               let* p := read (λ w, parentElement w element) in
               match p with
               | Some p => removeChild p element
               | None => ret tt
               end) l i tt w = Ok tt w).
  { induction l as [|m l IH]; intros i Hl; [done|].
    rewrite forEach_cons. unfold bind at 1. unfold bind at 1. unfold read.
    rewrite (Hl m) by left. apply IH. intros m' Hm'. apply Hl. by right. }
  by rewrite (bind_Ok _ _ _ _ _ (Hloop (items this) 0%nat Hnone)).
Qed.

(** X10. [detach] is idempotent: detaching a collection that has just
    been detached changes nothing. *)
Theorem detach_twice (this : DOM) (w : world) :
  ∃ w', detach this w = Ok this w' ∧ detach this w' = Ok this w'.
Proof.
  destruct (detach_effect this w) as (w' & Hrun & Hnone & _).
  exists w'. split; [exact Hrun|]. by apply detach_noop.
Qed.

(** ** [remove] on members that are no elements *)

Section RemoveEdges.
Context `{Platform}.

Lemma querySelectorAll_star_throw fuel m w e w' :
  querySelectorAll fuel m (js "*") w = Throw e w' →
  e = TypeError ∧ w' = w ∧ isParentNode m = false.
Proof.
  unfold querySelectorAll, compile_selector.
  destruct (decide (js "*" = js "*")); [|done].
  destruct (isParentNode m); [|by intros [= <- <-]].
  by destruct (descendants fuel w m).
Qed.

Lemma find_loop_throw fuel sel w (l : list handle) :
  ∀ i acc e w',
    forEach (λ element (_ : nat) collection,
               let* elements := querySelectorAll fuel element sel in
               ret (add (VArray (VNode <$> elements)) collection))
            l i acc w = Throw e w' →
    ∃ m, m ∈ l ∧ querySelectorAll fuel m sel w = Throw e w'.
Proof.
  induction l as [|m l IH]; intros i acc e w'; [done|].
  rewrite forEach_cons. unfold bind at 1. unfold bind at 1.
  pose proof (querySelectorAll_reads fuel m sel w) as Hq.
  destruct (querySelectorAll fuel m sel w) as [lm w1|e1 w1|] eqn:Eq.
  - destruct Hq as [-> _]. unfold ret at 1. intros Hrun.
    destruct (IH _ _ _ _ Hrun) as (m' & Hm' & Hthrow).
    exists m'. split; [by right | done].
  - intros [= <- <-]. exists m. split; [left | done].
  - done.
Qed.

(** X11. A text node (or any other member without [querySelectorAll])
    makes [remove] fail before it has changed anything: the call never
    returns, an exception it throws is a [TypeError] with the world as
    before, and that is what happens when the node is the first member. *)
Theorem remove_text_member (fuel : nat) (this : DOM) (w : world)
    (m : handle) :
  m ∈ items this → isParentNode m = false →
  (∀ r w', remove fuel this w ≠ Ok r w')
  ∧ (∀ e w', remove fuel this w = Throw e w' → e = TypeError ∧ w' = w)
  ∧ (∀ rest, items this = m :: rest →
             remove (S fuel) this w = Throw TypeError w).
Proof.
  intros Hm Hpn.
  assert (Hq : ∀ f, querySelectorAll f m (js "*") w = Throw TypeError w).
  { intros f. unfold querySelectorAll. by rewrite Hpn. }
  split; [|split].
  - intros r w' Hrun. destruct fuel as [|fuel]; [done|].
    rewrite remove_unfold in Hrun.
    apply bind_Ok_inv in Hrun as (children & w1 & Hfind & _).
    pose proof (find_outcome (S fuel) (js "*") this w) as Hout.
    rewrite Hfind in Hout. destruct Hout as (_ & ls & Hls & _).
    apply list_elem_of_lookup in Hm as [i Hi].
    destruct (Forall2_lookup_l _ _ _ _ _ Hls Hi) as (lm & _ & Hlm).
    rewrite Hq in Hlm. discriminate.
  - intros e w' Hrun. destruct fuel as [|fuel]; [done|].
    rewrite remove_unfold in Hrun. unfold bind at 1 in Hrun.
    pose proof (find_outcome (S fuel) (js "*") this w) as Hout.
    destruct (find (S fuel) (js "*") this w) as [c w1|e1 w1|] eqn:Hfind.
    + destruct Hout as (_ & ls & Hls & _).
      apply list_elem_of_lookup in Hm as [i Hi].
      destruct (Forall2_lookup_l _ _ _ _ _ Hls Hi) as (lm & _ & Hlm).
      rewrite Hq in Hlm. discriminate.
    + injection Hrun as <- <-.
      apply find_loop_throw in Hfind as (m' & _ & Hthrow).
      by apply querySelectorAll_star_throw in Hthrow as (-> & -> & _).
    + done.
  - intros rest Hitems. rewrite remove_unfold.
    apply bind_Throw. unfold find, each. rewrite Hitems, forEach_cons.
    apply bind_Throw. apply bind_Throw. apply Hq.
Qed.

(** X12. [remove] on a collection that holds a document (or a
    fragment) alone removes every element below it, as it does for an
    element, purges the private record of the document, and then throws
    a [TypeError]: a document has no [remove] method.  The collection is
    not truncated. *)
Theorem remove_document (rk : handle → nat) (fuel : nat) (this : DOM)
    (d : handle) (w : world) :
  items this = [d] → isParentNode d = true → isChildNode d = false →
  tree_ok w → ranked w rk → (rk d ≤ fuel)%nat →
  ∃ w', remove (S fuel) this w = Throw TypeError w'
        ∧ (∀ x, hiface x = Element → contains w d x → gone w' x)
        ∧ privateData w' !! d = None.
Proof.
  intros Hitems Hpn Hcn Hok Hrk Hfuel.
  destruct (find_star_parents w rk (S fuel) this Hrk)
    as (children & Hfind & Hchildren).
  { intros m Hm. rewrite Hitems in Hm.
    apply list_elem_of_singleton in Hm as ->. split; [done | lia]. }
  assert (Hrec : ∃ w1,
    (if negb (length_of children =? 0) then remove fuel children >> ret tt
     else ret tt) w = Ok tt w1
    ∧ tree_ok w1 ∧ shrinks w w1
    ∧ ∀ x, x ∈ items children → unlinked w1 x).
  { destruct (length_of children =? 0) eqn:Hlen; simpl.
    - exists w. split; [reflexivity|]. split; [done|].
      split; [apply shrinks_refl|]. intros x Hx.
      apply Z.eqb_eq in Hlen. unfold length_of in Hlen.
      destruct (items children); [by apply elem_of_nil in Hx|].
      simpl in Hlen. lia.
    - assert (Hkids : ∀ m, m ∈ items children →
                hiface m = Element ∧ (S (rk m) ≤ fuel)%nat).
      { intros m Hm. apply Hchildren in Hm as (He & m0 & Hm0 & Hc).
        split; [done|]. rewrite Hitems in Hm0.
        apply list_elem_of_singleton in Hm0 as ->.
        pose proof (ranked_contains w rk d m Hrk Hc). lia. }
      destruct fuel as [|fuel'].
      + apply Z.eqb_neq in Hlen. unfold length_of in Hlen.
        destruct (items children) as [|m l] eqn:Hc; [done|].
        destruct (Hkids m); [left | lia].
      + destruct (remove_unlinks rk fuel' children w Hok Hrk)
          as (w1 & Hrun & Hok1 & Hsh1 & Hun1).
        { intros m Hm. destruct (Hkids m Hm). split; [done | lia]. }
        exists w1. split; [by rewrite (bind_Ok _ _ _ _ _ Hrun)|].
        split; [done|]. split; [done|].
        intros x Hx. apply Hun1. by left. }
  destruct Hrec as (w1 & Hrec & Hok1 & Hsh1 & Hun1).
  destruct (detach_spec this w1 Hok1) as (w2 & Hdet & Hok2 & Hsh2).
  destruct (cleanUp_spec this w2 Hok2) as (w3 & Hcl & Hok3 & Hsh3 & Hpurged).
  exists w3. split; [|split].
  - rewrite remove_unfold, (bind_Ok _ _ _ _ _ Hfind),
      (bind_Ok _ _ _ _ _ Hrec), (bind_Ok _ _ _ _ _ Hdet),
      (bind_Ok _ _ _ _ _ Hcl).
    apply bind_Throw. unfold each. rewrite Hitems, forEach_cons.
    apply bind_Throw. unfold ChildNode_remove. by rewrite Hcn.
  - intros x Hx Hc.
    assert (Hun : unlinked w3 x).
    { apply (shrinks_unlinked w1); [eauto using shrinks_trans|].
      apply Hun1, Hchildren. split; [done|]. exists d.
      split; [rewrite Hitems; left | done]. }
    destruct Hun as [Hp Hd]. split; [done|]. split; [|done].
    by apply no_parent_not_contained.
  - apply Hpurged. rewrite Hitems. left.
Qed.

End RemoveEdges.

Lemma remove_text_member_witness :
  @remove Example.platform 5 (dollar_node Example.text) Example.w1
  = Throw TypeError Example.w1.
Proof.
  apply (@remove_text_member Example.platform 4 (dollar_node Example.text)
           Example.w1 Example.text) with (rest := []).
  - vm_compute. left.
  - reflexivity.
  - reflexivity.
Defined.

Lemma remove_document_witness :
  ∃ w', @remove Example.platform 10 dollar_document Example.w1
        = Throw TypeError w'
        ∧ gone w' Example.span.
Proof.
  destruct (@remove_document Example.platform Example.rk 9 dollar_document
              document Example.w1) as (w' & Hrun & Hgone & _).
  - reflexivity.
  - reflexivity.
  - reflexivity.
  - exact example_tree_ok.
  - exact example_ranked.
  - vm_compute. lia.
  - exists w'. split; [exact Hrun|]. apply Hgone; [reflexivity|].
    eapply contains_below; [vm_compute; left|].
    eapply contains_below; [vm_compute; left|].
    apply contains_child. vm_compute. left.
Defined.

(** ** [data] *)

Lemma dollar_node_allowed (m : handle) :
  isElement (VNode m) = true →
  dollar_node m = mkDOM [m] (VNode m) (Some dollar_document).
Proof.
  intros Hm. unfold dollar_node, init_add.
  rewrite add_VNode. unfold add_node. by rewrite Hm.
Qed.

Lemma record_get_set r key value w r' key' :
  record_get r' key' (record_set r key value w)
  = if decide (r = r' ∧ key = key') then value else record_get r' key' w.
Proof.
  unfold record_get, record_set. simpl.
  destruct (decide (r = r')) as [<-|Hr].
  - rewrite lookup_insert_eq. simpl.
    destruct (decide (key = key')) as [<-|Hk].
    + rewrite decide_True by done. by rewrite lookup_insert_eq.
    + rewrite decide_False by (by intros [_ ?]).
      rewrite lookup_insert_ne by done. by destruct (records w !! r).
  - rewrite decide_False by (by intros [? _]).
    by rewrite lookup_insert_ne.
Qed.

Lemma store_ok_init e w :
  store_ok w → privateData w !! e = None → store_ok (privateData_init e w).
Proof.
  intros [Hlt Hinj] He. split; simpl.
  - intros e0 r0 H0. destruct (decide (e = e0)) as [<-|Hne].
    + rewrite lookup_insert_eq in H0. injection H0 as <-. lia.
    + rewrite lookup_insert_ne in H0 by done.
      pose proof (Hlt e0 r0 H0). lia.
  - intros e1 e2 r H1 H2.
    destruct (decide (e = e1)) as [<-|Hne1], (decide (e = e2)) as [<-|Hne2];
      [done| | |].
    + rewrite lookup_insert_eq in H1. injection H1 as <-.
      rewrite lookup_insert_ne in H2 by done.
      pose proof (Hlt e2 _ H2). lia.
    + rewrite lookup_insert_eq in H2. injection H2 as <-.
      rewrite lookup_insert_ne in H1 by done.
      pose proof (Hlt e1 _ H1). lia.
    + rewrite lookup_insert_ne in H1, H2 by done. by eapply Hinj.
Qed.

Lemma stored_init e w e' k' :
  store_ok w → privateData w !! e = None →
  stored (privateData_init e w) e' k' = stored w e' k'.
Proof.
  intros [Hlt _] He. unfold stored. simpl.
  destruct (decide (e = e')) as [<-|Hne].
  - rewrite lookup_insert_eq, He. unfold record_get. simpl.
    by rewrite lookup_insert_eq.
  - rewrite lookup_insert_ne by done.
    destruct (privateData w !! e') as [r'|] eqn:Hr'; [|done].
    unfold record_get. simpl. rewrite lookup_insert_ne; [done|].
    pose proof (Hlt e' r' Hr'). lia.
Qed.

(** Get mode on a collection of one member. *)
Lemma data_get_one e sel par key w :
  store_ok w →
  ∃ w', data_get key (mkDOM [e] sel par) w
        = Ok (match key with
              | Some key => stored w e key
              | None => match privateData w' !! e with
                        | Some r => VRecord r
                        | None => VUndefined
                        end
              end) w'
        ∧ is_Some (privateData w' !! e)
        ∧ (is_Some (privateData w !! e) → w' = w)
        ∧ (∀ e' k', stored w' e' k' = stored w e' k')
        ∧ store_ok w'
        ∧ parentNode w' = parentNode w ∧ childNodes w' = childNodes w.
Proof.
  intros Hok. unfold data_get. simpl. unfold bind, read, modify.
  destruct (privateData w !! e) as [r|] eqn:Hr.
  - exists w. rewrite bool_decide_eq_true_2 by eauto. simpl. rewrite Hr.
    split; [destruct key; [|done]; unfold stored; by rewrite Hr|].
    split; [eauto|]. split; [done|]. split; [done|]. by split.
  - exists (privateData_init e w).
    rewrite bool_decide_eq_false_2 by (by intros [? ?]). simpl.
    rewrite lookup_insert_eq.
    split; [|split; [eauto|split; [by intros [? ?]|split; [|split]]]].
    + destruct key as [k|]; [|done]. f_equal.
      rewrite <- (stored_init e w e k Hok Hr). unfold stored. simpl.
      by rewrite lookup_insert_eq.
    + intros e' k'. by apply stored_init.
    + by apply store_ok_init.
    + done.
Qed.

(** X13. [data()] and [data(key)] read through the one member of a
    collection: the value is what the store holds for the member
    ([undefined] without record or property).  Reading creates the
    member's record when there is none, changes no stored value, and
    leaves the world alone when the record exists.  On a collection of
    any other length the result is [undefined], with nothing created. *)
Theorem data_reads (key : option jsstring) (this : DOM) (w : world) :
  store_ok w →
  (length_of this ≠ 1 → data key VUndefined this w = Ok VUndefined w)
  ∧ (∀ e, items this = [e] →
       ∃ w', data key VUndefined this w
             = Ok (match key with
                   | Some key => stored w e key
                   | None => match privateData w' !! e with
                             | Some r => VRecord r
                             | None => VUndefined
                             end
                   end) w'
             ∧ is_Some (privateData w' !! e)
             ∧ (is_Some (privateData w !! e) → w' = w)
             ∧ (∀ e' k', stored w' e' k' = stored w e' k')
             ∧ store_ok w').
Proof.
  intros Hok. unfold data. simpl. split.
  - intros Hlen. unfold data_get.
    destruct (Z.eqb_spec (length_of this) 1); [done | reflexivity].
  - intros e He. destruct this as [l sel par]. simpl in He. subst l.
    destruct (data_get_one e sel par key w Hok)
      as (w' & Hrun & Hsome & Hsame & Hframe & Hok' & _).
    exists w'. split; [exact Hrun|]. split; [done|]. split; [done|].
    by split.
Qed.

Lemma example_store_ok0 : store_ok Example.w0.
Proof.
  split; [intros e r He | intros e1 e2 r He _];
    unfold Example.w0 in He; simpl in He; by rewrite lookup_empty in He.
Qed.

Lemma data_reads_witness :
  ∃ w', data (Some (js "x")) VUndefined (dollar_node Example.div) Example.w0
        = Ok VUndefined w'
        ∧ is_Some (privateData w' !! Example.div).
Proof.
  destruct (data_reads (Some (js "x")) (dollar_node Example.div) Example.w0
              example_store_ok0) as [_ Hone].
  destruct (Hone Example.div eq_refl) as (w' & Hrun & Hsome & _).
  exists w'. split; [exact Hrun | exact Hsome].
Defined.

(** One turn of the loop of [data] in set mode. *)
Lemma data_write_step x key value w :
  isElement (VNode x) = true → store_ok w →
  ∃ w', (let* data := data_get None (dollar_node x) in
         match data with
         | VRecord r => modify (record_set r key value)
         | _ => throw TypeError
         end) w = Ok tt w'
        ∧ store_ok w'
        ∧ stored w' x key = value
        ∧ (∀ e' k', e' ≠ x ∨ k' ≠ key → stored w' e' k' = stored w e' k')
        ∧ parentNode w' = parentNode w ∧ childNodes w' = childNodes w.
Proof.
  intros Hx Hok. rewrite (dollar_node_allowed x Hx).
  destruct (data_get_one x (VNode x) (Some dollar_document) None w Hok)
    as (w1 & Hget & [r Hr] & _ & Hframe & Hok1 & Hp & Hc).
  rewrite Hr in Hget.
  exists (record_set r key value w1).
  split; [by rewrite (bind_Ok _ _ _ _ _ Hget)|].
  split; [exact Hok1|]. split; [|split; [|by split]].
  - unfold stored. simpl. rewrite Hr, record_get_set.
    by rewrite decide_True.
  - intros e' k' Hne. rewrite <- Hframe. unfold stored. simpl.
    destruct (privateData w1 !! e') as [r'|] eqn:Hr'; [|done].
    rewrite record_get_set. rewrite decide_False; [done|].
    intros [-> ->]. destruct Hok1 as [_ Hinj].
    pose proof (Hinj _ _ _ Hr Hr'). destruct Hne; congruence.
Qed.

(** X14. [data(key, value)] writes to every member, whatever the
    length of the collection: afterwards the store holds [value] under
    the key for each member, a fresh [$(member).data(key)] returns it,
    and every other stored value (another key, or a node outside the
    collection) is as before.  Without key the property name is
    ["undefined"]. *)
Theorem data_writes (key : option jsstring) (value : jsval) (this : DOM)
    (w : world) :
  is_undefined value = false → members_allowed this → store_ok w →
  ∃ w', data key value this w = Ok (VDOM this) w'
        ∧ store_ok w'
        ∧ (∀ m, m ∈ items this →
             stored w' m (property_key key) = value
             ∧ data (Some (property_key key)) VUndefined (dollar_node m) w'
               = Ok value w')
        ∧ (∀ e' k', e' ∉ items this ∨ k' ≠ property_key key →
                    stored w' e' k' = stored w e' k').
Proof.
  intros Hv Hall Hok. unfold data at 1. rewrite Hv. unfold each.
  unfold members_allowed in Hall. rewrite Forall_forall in Hall.
  destruct (forEach_establish
              (λ element,
                 let* data := data_get None (dollar_node element) in
                 match data with
                 | VRecord r => modify (record_set r (property_key key) value)
                 | _ => throw TypeError
                 end)
              (λ w1, store_ok w1
                     ∧ ∀ e' k', e' ∉ items this ∨ k' ≠ property_key key →
                                stored w1 e' k' = stored w e' k')
              (λ m w1, stored w1 m (property_key key) = value) (items this))
    with (i := 0%nat) (w := w) as (w' & Hrun & [Hok' Hframe] & HQ & _).
  - intros x w1 Hx [Hok1 Hframe1].
    destruct (data_write_step x (property_key key) value w1 (Hall x Hx) Hok1)
      as (w2 & Hstep & Hok2 & Hset & Hframe2 & _).
    exists w2. split; [exact Hstep|]. split; [|split; [exact Hset|]].
    + split; [exact Hok2|]. intros e' k' Hne.
      rewrite <- (Hframe1 e' k' Hne). apply Hframe2.
      destruct Hne as [Hne|Hne]; [left; by intros -> | by right].
    + intros y Hy. destruct (decide (y = x)) as [->|Hne]; [done|].
      rewrite <- Hy. apply Hframe2. by left.
  - by split.
  - exists w'. split; [by rewrite (bind_Ok _ _ _ _ _ Hrun)|].
    split; [exact Hok'|]. split; [|exact Hframe].
    intros m Hm. split; [by apply HQ|].
    rewrite (dollar_node_allowed m (Hall m Hm)).
    destruct (data_get_one m (VNode m) (Some dollar_document)
                (Some (property_key key)) w' Hok')
      as (w2 & Hget & _ & Hsame & _).
    assert (Hsome : is_Some (privateData w' !! m)).
    { pose proof (HQ m Hm) as Hq. unfold stored in Hq.
      destruct (privateData w' !! m); [eauto|].
      subst value. discriminate. }
    rewrite (Hsame Hsome) in Hget. unfold data. simpl.
    by rewrite Hget, (HQ m Hm).
Qed.

Lemma data_writes_witness :
  ∃ w', data (Some (js "x")) (VNum 7)
             (add (VNode Example.text) (dollar_node Example.div)) Example.w0
        = Ok (VDOM (add (VNode Example.text) (dollar_node Example.div))) w'
        ∧ data (Some (js "x")) VUndefined (dollar_node Example.text) w'
          = Ok (VNum 7) w'
        ∧ stored w' Example.span (js "x") = VUndefined.
Proof.
  destruct (data_writes (Some (js "x")) (VNum 7)
              (add (VNode Example.text) (dollar_node Example.div)) Example.w0)
    as (w' & Hrun & _ & Hset & Hframe).
  - reflexivity.
  - apply add_allowed, init_add_allowed.
  - exact example_store_ok0.
  - exists w'. split; [exact Hrun|]. split.
    + apply Hset. vm_compute. right. left.
    + rewrite Hframe; [reflexivity|]. left. vm_compute.
      intros Hin. inversion Hin as [|? ? ? Hin']; subst.
      inversion Hin' as [|? ? ? Hin'']; subst. inversion Hin''.
Defined.

(** ** [attr] on other nodes and other attributes *)

Section AttrProperties.
Context `{Platform}.

(** X15. [attr] needs elements.  In get mode it never changes the
    world, and the only exception is the [TypeError] of a lone member
    without [getAttribute]: a text node, or the document, as in
    [$document.attr(key)].  In set mode a first member that is no
    element makes the call throw a [TypeError] before anything is set. *)
Theorem attr_needs_elements (key : jsstring) (w : world) :
  (∀ this, match attr key None this w with
           | Ok _ w' => w' = w
           | Throw e w' => e = TypeError ∧ w' = w
           | OutOfFuel => False
           end)
  ∧ (∀ m sel par, hiface m ≠ Element →
       attr key None (mkDOM [m] sel par) w = Throw TypeError w)
  ∧ (∀ m value this rest, hiface m ≠ Element → items this = m :: rest →
       attr key (Some value) this w = Throw TypeError w).
Proof.
  split; [|split].
  - intros this. unfold attr.
    destruct (negb (length_of this =? 1)); [done|].
    destruct (get 0 this) as [element|]; [|done].
    unfold getAttribute. by destruct (decide (hiface element = Element)).
  - intros m sel par Hm. unfold attr. simpl. unfold getAttribute.
    by rewrite decide_False.
  - intros m value this rest Hm Hitems. unfold attr, each.
    rewrite Hitems, forEach_cons. apply bind_Throw, bind_Throw.
    unfold setAttribute. by rewrite decide_False.
Qed.



End AttrProperties.

Lemma attr_needs_elements_witness :
  @attr Example.platform (js "lang") None dollar_document Example.w0
  = Throw TypeError Example.w0
  ∧ @attr Example.platform (js "lang") (Some (js "en"))
          (add (VNode Example.div) dollar_document) Example.w0
    = Throw TypeError Example.w0.
Proof.
  destruct (@attr_needs_elements Example.platform (js "lang") Example.w0)
    as (_ & Hget & Hset).
  split.
  - apply (Hget document). discriminate.
  - apply (Hset document _ _ [Example.div]); [discriminate | reflexivity].
Defined.


(** ** [addClass] and [removeClass] *)

Lemma only_classes_refl w : only_classes w w.
Proof. by repeat split. Qed.

Lemma only_classes_trans w1 w2 w3 :
  only_classes w1 w2 → only_classes w2 w3 → only_classes w1 w3.
Proof.
  intros (?&?&?&?&?&?) (?&?&?&?&?&?). repeat split; congruence.
Qed.

Lemma spaceless_valid (t : jsstring) : t ≠ [] → spaceless t → valid_token t.
Proof.
  intros Hne Hs. split; [done|].
  induction Hs as [|c t Hc _ IH]; [done|]. simpl.
  apply orb_false_iff. split.
  - revert Hc. unfold isWhiteSpace, isAsciiWhitespace.
    destruct (N.eqb_spec c 9), (N.eqb_spec c 10), (N.eqb_spec c 12),
      (N.eqb_spec c 13), (N.eqb_spec c 32); subst; simpl; try done.
  - destruct t; [done|]. by apply IH.
Qed.

Lemma parseSpaces_valid (classes : jsstring) :
  ¬ blank classes → Forall valid_token (parseSpaces classes).
Proof.
  intros Hb. destruct (parseSpaces_tokens_aux classes) as (Hs & _ & _ & Hne).
  specialize (Hne Hb). rewrite Forall_forall in *.
  intros t Ht. apply spaceless_valid; auto.
Qed.

Lemma check_token_valid (t : jsstring) (w : world) :
  valid_token t → check_token t w = Ok tt w.
Proof.
  intros [Hne Hws]. unfold check_token.
  by rewrite bool_decide_eq_false_2, Hws.
Qed.

Lemma classes_of_set h l w h' :
  classes_of (set_classList (<[h := l]> (classList w)) w) h'
  = if decide (h = h') then l else classes_of w h'.
Proof.
  unfold classes_of. simpl. destruct (decide (h = h')) as [<-|Hne].
  - by rewrite lookup_insert_eq.
  - by rewrite lookup_insert_ne.
Qed.

Lemma classList_add_step e t w :
  hiface e = Element → valid_token t →
  ∃ w', classList_add e t w = Ok tt w'
        ∧ classes_of w' e = add_token (classes_of w e) t
        ∧ (∀ h, h ≠ e → classes_of w' h = classes_of w h)
        ∧ only_classes w w'
        ∧ (t ∈ classes_of w e → w' = w).
Proof.
  intros He Ht. unfold classList_add.
  destruct (decide (hiface e = Element)); [|done].
  rewrite (bind_Ok _ _ _ _ _ (check_token_valid t w Ht)).
  unfold modify, add_token.
  destruct (bool_decide (t ∈ classes_of w e)) eqn:Hin.
  - exists w. split; [done|]. split; [done|]. split; [done|].
    split; [apply only_classes_refl | done].
  - eexists. split; [reflexivity|]. split; [|split; [|split]].
    + rewrite classes_of_set. by rewrite decide_True.
    + intros h Hh. rewrite classes_of_set. by rewrite decide_False.
    + by repeat split.
    + intros Hin'. apply bool_decide_eq_false_1 in Hin. done.
Qed.


(** The tokens of one member, added one after the other. *)
Lemma add_tokens_loop e (ts : list jsstring) :
  hiface e = Element → Forall valid_token ts →
  ∀ i w,
    ∃ w', forEach (λ _class (_ : nat) (_ : unit), classList_add e _class)
                  ts i tt w = Ok tt w'
          ∧ classes_of w' e = foldl add_token (classes_of w e) ts
          ∧ (∀ h, h ≠ e → classes_of w' h = classes_of w h)
          ∧ only_classes w w'
          ∧ ((∀ t, t ∈ ts → t ∈ classes_of w e) → w' = w).
Proof.
  intros He. induction 1 as [|t ts Ht _ IH]; intros i w.
  - exists w. split; [done|]. split; [done|]. split; [done|].
    split; [apply only_classes_refl | done].
  - destruct (classList_add_step e t w He Ht)
      as (w1 & Hstep & Hc1 & Ho1 & Hk1 & Hsame1).
    destruct (IH (S i) w1) as (w2 & Hrun & Hc2 & Ho2 & Hk2 & Hsame2).
    exists w2. split; [by rewrite forEach_cons, (bind_Ok _ _ _ _ _ Hstep)|].
    split; [by rewrite Hc2, Hc1|]. split; [|split].
    + intros h Hh. by rewrite Ho2, Ho1.
    + by eapply only_classes_trans.
    + intros Hall.
      assert (w1 = w) as -> by (apply Hsame1, Hall; left).
      apply Hsame2. intros t' Ht'. apply Hall. by right.
Qed.


(** What [foldl add_token] does to a class list. *)
Lemma add_tokens_spec (ts : list jsstring) :
  ∀ l, ∃ ns, foldl add_token l ts = l ++ ns
             ∧ Forall (λ t, t ∈ ts) ns
             ∧ ∀ t, t ∈ ts → t ∈ l ++ ns.
Proof.
  induction ts as [|t ts IH]; intros l.
  - exists []. split; [by rewrite app_nil_r|]. split; [constructor|].
    intros t Ht. by apply elem_of_nil in Ht.
  - simpl. destruct (IH (add_token l t)) as (ns & Hns & Hall & Hin).
    unfold add_token in *. destruct (bool_decide (t ∈ l)) eqn:Ht.
    + apply bool_decide_eq_true_1 in Ht.
      exists ns. split; [done|]. split.
      * eapply Forall_impl; [exact Hall|]. intros x Hx. by right.
      * intros x Hx. apply elem_of_cons in Hx as [->|Hx]; [|by apply Hin].
        apply elem_of_app. by left.
    + exists (t :: ns). split; [by rewrite Hns, <- app_assoc|]. split.
      * constructor; [left|].
        eapply Forall_impl; [exact Hall|]. intros x Hx. by right.
      * intros x Hx. apply elem_of_cons in Hx as [->|Hx].
        -- apply elem_of_app. right. left.
        -- specialize (Hin x Hx). rewrite <- app_assoc in Hin. exact Hin.
Qed.

Lemma add_tokens_present (ts : list jsstring) :
  ∀ l, (∀ t, t ∈ ts → t ∈ l) → foldl add_token l ts = l.
Proof.
  induction ts as [|t ts IH]; intros l Hall; [done|]. simpl.
  unfold add_token at 2. rewrite bool_decide_eq_true_2 by (apply Hall; left).
  apply IH. intros x Hx. apply Hall. by right.
Qed.

Lemma add_tokens_idem (ts l : list jsstring) :
  foldl add_token (foldl add_token l ts) ts = foldl add_token l ts.
Proof.
  apply add_tokens_present. intros t Ht.
  destruct (add_tokens_spec ts l) as (ns & -> & _ & Hin). by apply Hin.
Qed.

(** A loop that rewrites the class list of each member by [f]. *)
Lemma class_loop (step : handle → M unit)
    (f : list jsstring → list jsstring) (l : list handle) (w : world) :
  (∀ x w1, x ∈ l →
     ∃ w2, step x w1 = Ok tt w2
           ∧ classes_of w2 x = f (classes_of w1 x)
           ∧ (∀ h, h ≠ x → classes_of w2 h = classes_of w1 h)
           ∧ only_classes w1 w2) →
  (∀ c, f (f c) = f c) →
  ∃ w', forEach (λ element (_ : nat) (_ : unit), step element) l 0%nat tt w
        = Ok tt w'
        ∧ (∀ h, h ∈ l → classes_of w' h = f (classes_of w h))
        ∧ (∀ h, h ∉ l → classes_of w' h = classes_of w h)
        ∧ only_classes w w'.
Proof.
  intros Hstep Hidem.
  destruct (forEach_establish step
              (λ w1, only_classes w w1
                     ∧ (∀ h, h ∉ l → classes_of w1 h = classes_of w h)
                     ∧ (∀ h, classes_of w1 h = classes_of w h
                             ∨ classes_of w1 h = f (classes_of w h)))
              (λ m w1, classes_of w1 m = f (classes_of w m)) l)
    with (i := 0%nat) (w := w) as (w' & Hrun & (Ho & Hout & _) & HQ & _).
  - intros x w1 Hx (Ho1 & Hout1 & Hor1).
    destruct (Hstep x w1 Hx) as (w2 & Hx2 & Hc2 & Hk2 & Ho2).
    assert (Hfx : classes_of w2 x = f (classes_of w x)).
    { rewrite Hc2. destruct (Hor1 x) as [->| ->]; [done | apply Hidem]. }
    exists w2. split; [exact Hx2|]. split; [|split; [exact Hfx|]].
    + split; [by eapply only_classes_trans|]. split.
      * intros h Hh. rewrite Hk2; [by apply Hout1|]. by intros ->.
      * intros h. destruct (decide (h = x)) as [->|Hne]; [by right|].
        rewrite Hk2 by done. apply Hor1.
    + intros y Hy. destruct (decide (y = x)) as [->|Hne]; [done|].
      by rewrite Hk2.
  - split; [apply only_classes_refl|]. split; [done | by left].
  - by exists w'.
Qed.

Lemma addClass_effect classes this w :
  Forall (λ m, hiface m = Element) (items this) → ¬ blank classes →
  ∃ w', addClass classes this w = Ok this w'
        ∧ (∀ m, m ∈ items this →
             classes_of w' m
             = foldl add_token (classes_of w m) (parseSpaces classes))
        ∧ (∀ h, h ∉ items this → classes_of w' h = classes_of w h)
        ∧ only_classes w w'.
Proof.
  intros Hel Hb. rewrite Forall_forall in Hel.
  pose proof (parseSpaces_valid classes Hb) as Hvalid.
  unfold addClass, each.
  destruct (class_loop
              (λ element,
                 forEach (λ _class (_ : nat) (_ : unit),
                            classList_add element _class)
                         (parseSpaces classes) 0%nat tt)
              (λ c, foldl add_token c (parseSpaces classes))
              (items this) w) as (w' & Hrun & Hin & Hout & Ho).
  - intros x w1 Hx.
    destruct (add_tokens_loop x (parseSpaces classes) (Hel x Hx) Hvalid
                0%nat w1) as (w2 & Hloop & Hc & Hk & Ho & _).
    by exists w2.
  - intros c. apply add_tokens_idem.
  - exists w'. split; [by rewrite (bind_Ok _ _ _ _ _ Hrun)|]. by split.
Qed.



(** X18. [addClass] is idempotent on a collection of elements: a second
    call with the same string leaves the world exactly as the first
    left it. *)
Theorem addClass_twice (classes : jsstring) (this : DOM) (w : world) :
  Forall (λ m, hiface m = Element) (items this) → ¬ blank classes →
  ∃ w', addClass classes this w = Ok this w'
        ∧ addClass classes this w' = Ok this w'.
Proof.
  intros Hel Hb.
  destruct (addClass_effect classes this w Hel Hb)
    as (w' & Hrun & Hin & _).
  exists w'. split; [exact Hrun|].
  pose proof (parseSpaces_valid classes Hb) as Hvalid.
  rewrite Forall_forall in Hel. unfold addClass, each.
  assert (Hloop : ∀ l i,
    (∀ m, m ∈ l → m ∈ items this) →
    forEach (λ element (_ : nat) (_ : unit),
               forEach (λ _class (_ : nat) (_ : unit),
                          classList_add element _class)
                       (parseSpaces classes) 0%nat tt) l i tt w'
    = Ok tt w').
  { induction l as [|m l IH]; intros i Hl; [done|].
    destruct (add_tokens_loop m (parseSpaces classes)
                (Hel m (Hl m ltac:(left))) Hvalid 0%nat w')
      as (w2 & Hstep & _ & _ & _ & Hsame).
    assert (w2 = w') as ->.
    { apply Hsame. intros t Ht. rewrite (Hin m (Hl m ltac:(left))).
      destruct (add_tokens_spec (parseSpaces classes) (classes_of w m))
        as (ns & -> & _ & Hall). by apply Hall. }
    rewrite forEach_cons, (bind_Ok _ _ _ _ _ Hstep).
    apply IH. intros m' Hm'. apply Hl. by right. }
  by rewrite (bind_Ok _ _ _ _ _ (Hloop (items this) 0%nat (λ m Hm, Hm))).
Qed.



Lemma example_not_blank : ¬ blank (js "foo bar").
Proof. intros Hb. inversion Hb as [|? ? Hc _]. vm_compute in Hc. done. Qed.

Lemma example_elements :
  Forall (λ m, hiface m = Element)
         (items (add (VNode Example.div) (dollar_node Example.html))).
Proof. vm_compute. repeat constructor. Qed.


Lemma addClass_twice_witness :
  ∃ w', addClass (js "foo bar")
                 (add (VNode Example.div) (dollar_node Example.html))
                 Example.w0
        = Ok (add (VNode Example.div) (dollar_node Example.html)) w'
        ∧ addClass (js "foo bar")
                   (add (VNode Example.div) (dollar_node Example.html)) w'
          = Ok (add (VNode Example.div) (dollar_node Example.html)) w'.
Proof.
  exact (addClass_twice (js "foo bar")
           (add (VNode Example.div) (dollar_node Example.html))
           Example.w0 example_elements example_not_blank).
Defined.



(** ** [on], [off] and [css] *)

Lemma forEach_ext {A St} (cb1 cb2 : A → nat → St → M St) (l : list A) :
  (∀ x i s w, x ∈ l → cb1 x i s w = cb2 x i s w) →
  ∀ i s w, forEach cb1 l i s w = forEach cb2 l i s w.
Proof.
  induction l as [|x l IH]; intros Hcb i s w; [done|].
  rewrite !forEach_cons. unfold bind. rewrite (Hcb x i s w) by left.
  destruct (cb2 x i s w); [|done|done].
  apply IH. intros y j s' w' Hy. apply Hcb. by right.
Qed.

Lemma bind_assoc {A B C} (m : M A) (k : A → M B) (k' : B → M C) w :
  bind (bind m k) k' w = bind m (λ a, bind (k a) k') w.
Proof. unfold bind. by destruct (m w). Qed.

Section Events.
Context `{Platform}.

(** X21. [on] and [off] do nothing and return the collection when the
    callback is no function or the event string is empty.  A string of
    white space passes the guard: on a collection of one member the
    listener is then registered (or removed) for the event with the
    empty name. *)
Theorem on_off_guard (events : jsstring) (callback : jsval) (this : DOM)
    (w : world) :
  (is_function callback = false ∨ events = [] →
     on events callback this w = Ok this w
     ∧ off events callback this w = Ok this w)
  ∧ (∀ m, is_function callback = true → events ≠ [] → blank events →
          items this = [m] →
          on events callback this w
          = match addEventListener m [] callback w with
            | Normal _ w' => Ok this w'
            | Abrupt e w' => Throw e w'
            end
          ∧ off events callback this w
            = match removeEventListener m [] callback w with
              | Normal _ w' => Ok this w'
              | Abrupt e w' => Throw e w'
              end).
Proof.
  split.
  - intros [Hcb| ->]; unfold on, off.
    + by rewrite Hcb.
    + simpl. by rewrite orb_true_r.
  - intros m Hcb Hne Hb Hitems. unfold on, off, each. rewrite Hcb. simpl.
    rewrite bool_decide_eq_false_2 by done. simpl.
    rewrite (parseSpaces_blank events Hb), Hitems. simpl.
    unfold bind, lift, ret.
    by destruct (addEventListener m [] callback w),
                (removeEventListener m [] callback w).
Qed.

Lemma css_body_ext (G1 G2 : css_rule → jsval → DOM → M DOM) rule value
    this w :
  (∀ k v w', (k, v) ∈ own_properties rule →
             G1 (RuleName k) v this w' = G2 (RuleName k) v this w') →
  css_body G1 rule value this w = css_body G2 rule value this w.
Proof.
  intros Hext. unfold css_body.
  destruct (is_undefined value && ToBoolean (rule_value rule)); [|done].
  unfold bind at 1 3. erewrite forEach_ext; [reflexivity|].
  intros [k v] i s w' Hkv. unfold bind. by rewrite (Hext k v w' Hkv).
Qed.

Lemma css_body_defined (G1 G2 : css_rule → jsval → DOM → M DOM) rule value
    this w :
  is_undefined value = false →
  css_body G1 rule value this w = css_body G2 rule value this w.
Proof. intros Hv. unfold css_body. by rewrite Hv. Qed.

Lemma own_properties_name name k v :
  (k, v) ∈ own_properties (RuleName name) → is_undefined v = false.
Proof.
  simpl. intros Hkv. apply elem_of_lookup_imap in Hkv as (i & c & Heq & _).
  by injection Heq as -> ->.
Qed.

Lemma css_unfold rule value this w :
  css rule value this w = css_body css rule value this w.
Proof.
  unfold css at 1. apply css_body_ext. intros k v w1 _.
  unfold css. apply css_body_ext. intros k' v' w2 Hkv.
  apply css_body_defined. by eapply own_properties_name.
Qed.


Lemma css_body_object (G : css_rule → jsval → DOM → M DOM) props this :
  css_body G (RuleObject props) VUndefined this
  = (forEach (λ '(_rule, v) (_ : nat) (_ : unit),
                G (RuleName _rule) v this >> ret tt) props 0%nat tt >>
     ret this).
Proof. reflexivity. Qed.

Lemma forEach_index {A St} (cb : A → nat → St → M St) (l : list A) :
  (∀ x i j s w, cb x i s w = cb x j s w) →
  ∀ i j s w, forEach cb l i s w = forEach cb l j s w.
Proof.
  intros Hcb. induction l as [|x l IH]; intros i j s w; [done|].
  rewrite !forEach_cons. unfold bind. rewrite (Hcb x i j s w).
  destruct (cb x j s w); [|done|done]. apply IH.
Qed.

Lemma bind_OutOfFuel {A B} (m : M A) (k : A → M B) w :
  m w = OutOfFuel → bind m k w = OutOfFuel.
Proof. unfold bind. by intros ->. Qed.

(** X23. [css] with an object of rules sets the rules one by one, in
    the order of the object: it is [css(name, value)] on the first
    property, followed by [css] on the object of the others.  With the
    empty object nothing is set. *)
Theorem css_object (this : DOM) (w : world) :
  css (RuleObject []) VUndefined this w = Ok this w
  ∧ ∀ name value rest,
      css (RuleObject ((name, value) :: rest)) VUndefined this w
      = (css (RuleName name) value this >>
         css (RuleObject rest) VUndefined this) w.
Proof.
  split; [done|]. intros name value rest.
  rewrite css_unfold, css_body_object, forEach_cons, !bind_assoc.
  destruct (css (RuleName name) value this w) as [d w1|e w1|] eqn:Hcss.
  - rewrite !(bind_Ok _ _ _ _ _ Hcss), css_unfold, css_body_object.
    unfold bind at 1. unfold ret at 1. unfold bind at 1 2.
    rewrite (forEach_index _ rest) with (j := 0%nat); [done|].
    by intros [k v] i j s w'.
  - by rewrite !(bind_Throw _ _ _ _ _ Hcss).
  - by rewrite !(bind_OutOfFuel _ _ _ Hcss).
Qed.

End Events.

Lemma on_off_guard_witness :
  @on Example.platform (js "click") (VNum 3) (dollar_node Example.div)
      Example.w0
  = Ok (dollar_node Example.div) Example.w0
  ∧ @off Example.platform [] (VFun 1) (dollar_node Example.div) Example.w0
    = Ok (dollar_node Example.div) Example.w0.
Proof.
  split.
  - apply (@on_off_guard Example.platform). by left.
  - apply (@on_off_guard Example.platform). by right.
Defined.

(** ** [clone] and [toElement] *)


Section Clone.
Context `{Platform}.



(** X25. [toElement] returns the nodes the parser gives that pass
    [isElement] (comment nodes are left out), in their order; none of
    them has a parent element afterwards, and the private data store is
    as the parser left it.  An exception of the parser is passed on. *)
Theorem toElement_detached (html : jsstring) (w : world) :
  match parse_body_children html w with
  | Normal children w1 =>
      ∃ w', toElement html w = Ok (dollar_array children) w'
            ∧ items (dollar_array children)
              = filter (λ h, isElement (VNode h) = true) children
            ∧ (∀ m, m ∈ items (dollar_array children) →
                    parentElement w' m = None)
            ∧ privateData w' = privateData w1
  | Abrupt e w1 => toElement html w = Throw e w1
  end.
Proof.
  unfold toElement, bind, lift.
  destruct (parse_body_children html w) as [children w1|e w1]; [|done].
  destruct (detach_effect (dollar_array children) w1)
    as (w' & Hrun & Hnone & _ & _ & Hd & _).
  exists w'. split; [exact Hrun|]. split; [|by split].
  unfold dollar_array, init_add. by rewrite add_array_nodes.
Qed.

End Clone.


(** ** What [remove] leaves alone *)

Lemma contains_trans w a b c :
  contains w a b → contains w b c → contains w a c.
Proof.
  induction 1 as [a b Hb | a k b Hk _ IH]; intros Hc.
  - by eapply contains_below.
  - eapply contains_below; [exact Hk | by apply IH].
Qed.

Lemma descendants_sound w :
  ∀ fuel h l, descendants fuel w h = Some l → ∀ x, x ∈ l → contains w h x.
Proof.
  induction fuel as [|fuel IH]; intros h l Hl x Hx; [done|].
  simpl in Hl. apply fmap_Some in Hl as (ls & Hls & ->).
  apply mapM_Some in Hls.
  apply list_elem_of_In, in_concat in Hx as (lk & Hlk & Hx).
  apply list_elem_of_In, list_elem_of_lookup in Hlk as [i Hi].
  destruct (Forall2_lookup_r _ _ _ _ _ Hls Hi) as (k & Hk & Hfk).
  apply fmap_Some in Hfk as (l' & Hl' & ->).
  assert (Hkid : k ∈ children_of w h).
  { apply list_elem_of_lookup. by exists i. }
  apply list_elem_of_In, elem_of_cons in Hx as [->|Hx].
  - by apply contains_child.
  - eapply contains_below; [exact Hkid|]. by eapply IH.
Qed.

Section RemoveFrame.
Context `{Platform}.

Lemma find_star_sound fuel this w children w' :
  find fuel (js "*") this w = Ok children w' →
  w' = w
  ∧ ∀ x, x ∈ items children →
         hiface x = Element ∧ ∃ m, m ∈ items this ∧ contains w m x.
Proof.
  intros Hfind. pose proof (find_outcome fuel (js "*") this w) as Hout.
  rewrite Hfind in Hout. destruct Hout as (-> & ls & Hls & ->).
  split; [done|]. simpl. intros x Hx.
  apply list_elem_of_In, in_concat in Hx as (lm & Hlm & Hx).
  apply list_elem_of_In, list_elem_of_lookup in Hlm as [i Hi].
  destruct (Forall2_lookup_r _ _ _ _ _ Hls Hi) as (m & Hm & Hq).
  apply list_elem_of_In in Hx.
  unfold querySelectorAll in Hq.
  destruct (isParentNode m); [|done].
  destruct (compile_selector (js "*")); [|done].
  destruct (descendants fuel w m) as [l|] eqn:Hl; [|done].
  injection Hq as <-. apply list_elem_of_filter in Hx as [Hel Hx].
  apply andb_prop_elim in Hel as [Hel _]. apply bool_decide_unpack in Hel.
  split; [done|]. exists m. split.
  - apply list_elem_of_lookup. by exists i.
  - by eapply descendants_sound.
Qed.

End RemoveFrame.


Lemma same_outside_refl l w : same_outside l w w.
Proof. by split. Qed.

Lemma same_outside_trans l w1 w2 w3 :
  same_outside l w1 w2 → same_outside l w2 w3 → same_outside l w1 w3.
Proof.
  intros [H1 [Ha1 Hc1]] [H2 [Ha2 Hc2]]. split; [|split; congruence].
  intros x Hx. destruct (H1 x Hx), (H2 x Hx). split; congruence.
Qed.

Lemma same_outside_weaken l l' w w' :
  (∀ x, x ∈ l → x ∈ l') → same_outside l w w' → same_outside l' w w'.
Proof. intros Hsub [H1 H2]. split; [|done]. intros x Hx. apply H1. auto. Qed.

Lemma same_outside_unlink m p w : same_outside [m] w (unlink m p w).
Proof.
  split; [|done]. intros x Hx. split; [|done]. simpl.
  apply lookup_delete_ne. intros ->. apply Hx. left.
Qed.

Lemma detach_frame this w r w' :
  detach this w = Ok r w' → same_outside (items this) w w'.
Proof.
  intros Hrun.
  destruct (detach_effect this w)
    as (w2 & Hrun2 & _ & Hout & _ & Hd & _ & Ha & Hc).
  assert (w2 = w') as -> by congruence.
  split; [|done]. intros x Hx. split; [by apply Hout | by rewrite Hd].
Qed.

Lemma cleanUp_frame (l : list handle) :
  ∀ i w w',
    forEach (λ element (_ : nat) (_ : unit),
               modify (privateData_delete element)) l i tt w = Ok tt w' →
    same_outside l w w'.
Proof.
  induction l as [|m l IH]; intros i w w' Hrun.
  - injection Hrun as <-. apply same_outside_refl.
  - rewrite forEach_cons in Hrun.
    apply bind_Ok_inv in Hrun as ([] & w1 & Hstep & Hrun).
    injection Hstep as <-. apply IH in Hrun.
    apply (same_outside_trans _ _ (privateData_delete m w)).
    + apply (same_outside_weaken [m]); [|split; [|done]].
      * intros x Hx. apply list_elem_of_singleton in Hx as ->. left.
      * intros x Hx. split; [done|]. simpl. apply lookup_delete_ne.
        intros ->. apply Hx. left.
    + eapply same_outside_weaken; [|exact Hrun]. intros x Hx. by right.
Qed.

Lemma remove_nodes_frame (l : list handle) :
  ∀ i w w',
    forEach (λ element (_ : nat) (_ : unit), ChildNode_remove element)
            l i tt w = Ok tt w' →
    same_outside l w w'.
Proof.
  induction l as [|m l IH]; intros i w w' Hrun.
  - injection Hrun as <-. apply same_outside_refl.
  - rewrite forEach_cons in Hrun.
    apply bind_Ok_inv in Hrun as ([] & w1 & Hstep & Hrun).
    apply IH in Hrun. apply (same_outside_trans _ _ w1).
    + apply (same_outside_weaken [m]).
      * intros x Hx. apply list_elem_of_singleton in Hx as ->. left.
      * unfold ChildNode_remove in Hstep.
        destruct (isChildNode m); [|done].
        destruct (parentNode w !! m) as [p|].
        -- injection Hstep as <-. apply same_outside_unlink.
        -- injection Hstep as <-. apply same_outside_refl.
    + eapply same_outside_weaken; [|exact Hrun]. intros x Hx. by right.
Qed.

Section RemoveFrameClaim.
Context `{Platform}.

Lemma remove_frame_aux :
  ∀ fuel this w r w',
    remove fuel this w = Ok r w' →
    (∀ x, ¬ removed_by w this x →
          parentNode w' !! x = parentNode w !! x
          ∧ privateData w' !! x = privateData w !! x)
    ∧ attributes w' = attributes w ∧ classList w' = classList w.
Proof.
  induction fuel as [|fuel IH]; intros this w r w' Hrun; [done|].
  rewrite remove_unfold in Hrun.
  apply bind_Ok_inv in Hrun as (children & w0 & Hfind & Hrun).
  apply find_star_sound in Hfind as [-> Hsound].
  apply bind_Ok_inv in Hrun as ([] & w1 & Hmid & Hrun).
  apply bind_Ok_inv in Hrun as (r2 & w2 & Hdet & Hrun).
  apply bind_Ok_inv in Hrun as ([] & w3 & Hcl & Hrun).
  apply bind_Ok_inv in Hrun as ([] & w4 & Hrm & Hret).
  unfold ret in Hret. injection Hret as _ <-.
  apply detach_frame in Hdet. apply cleanUp_frame in Hcl.
  apply remove_nodes_frame in Hrm.
  pose proof (same_outside_trans _ _ _ _
                (same_outside_trans _ _ _ _ Hdet Hcl) Hrm) as [Hout [Ha Hc]].
  assert (Hinner :
    (∀ x, ¬ removed_by w children x →
          parentNode w1 !! x = parentNode w !! x
          ∧ privateData w1 !! x = privateData w !! x)
    ∧ attributes w1 = attributes w ∧ classList w1 = classList w).
  { destruct (negb (length_of children =? 0)).
    - apply bind_Ok_inv in Hmid as (r1 & w1' & Hrec & Hret).
      unfold ret in Hret. injection Hret as <-. by eapply IH.
    - unfold ret in Hmid. injection Hmid as <-. by split. }
  destruct Hinner as [Hin [Ha1 Hc1]].
  split; [|split; congruence].
  intros x Hx.
  assert (Hx1 : x ∉ items this) by (intros Hin'; apply Hx; by left).
  assert (Hx2 : ¬ removed_by w children x).
  { intros [Hc'|(Hel & c & Hc' & Hcx)].
    - apply Hsound in Hc' as (Hel & m & Hm & Hmx).
      apply Hx. right. split; [done|]. by exists m.
    - apply Hsound in Hc' as (_ & m & Hm & Hmc).
      apply Hx. right. split; [done|]. exists m. split; [done|].
      by eapply contains_trans. }
  destruct (Hout x Hx1) as [Hp Hd]. destruct (Hin x Hx2) as [Hp1 Hd1].
  split; congruence.
Qed.

(** X26. [remove] leaves the rest alone: when it returns, a node that
    is neither a member nor a descendant element of a member has the
    parent and the private record it had (so a text node below a removed
    element stays its child), and no attribute or class list has
    changed, those of the removed elements included. *)
Theorem remove_frame (fuel : nat) (this : DOM) (w : world) (r : DOM)
    (w' : world) :
  remove fuel this w = Ok r w' →
  (∀ x, ¬ removed_by w this x →
        parentNode w' !! x = parentNode w !! x
        ∧ privateData w' !! x = privateData w !! x)
  ∧ attributes w' = attributes w ∧ classList w' = classList w.
Proof. apply remove_frame_aux. Qed.

End RemoveFrameClaim.

Lemma remove_frame_witness :
  ∃ w', @remove Example.platform 9 (dollar_node Example.div) Example.w1
        = Ok (truncate (dollar_node Example.div)) w'
        ∧ parentNode w' !! Example.text = Some Example.html
        ∧ privateData w' !! Example.html = Some 1%positive.
Proof.
  destruct (@remove_unlinks Example.platform Example.rk 8%nat
              (dollar_node Example.div) Example.w1 example_tree_ok
              example_ranked) as (w' & Hrun & _).
  { intros m Hm. apply list_elem_of_singleton in Hm as ->.
    split; [reflexivity | vm_compute; lia]. }
  exists w'. split; [exact Hrun|].
  destruct (@remove_frame Example.platform _ _ _ _ _ Hrun) as [Hout _].
  assert (Hnot : ∀ x, hiface x ≠ Element ∨ x = Example.html →
                      x ≠ Example.div →
                      ¬ removed_by Example.w1 (dollar_node Example.div) x).
  { intros x Hx Hne [Hin|(Hel & m & Hm & Hc)].
    - vm_compute in Hin. apply list_elem_of_singleton in Hin. done.
    - destruct Hx as [Hx| ->]; [done|].
      pose proof (ranked_contains _ _ _ _ example_ranked Hc) as Hlt.
      vm_compute in Hm. apply list_elem_of_singleton in Hm as ->.
      vm_compute in Hlt. lia. }
  split.
  - destruct (Hout Example.text) as [-> _]; [|reflexivity].
    apply Hnot; [by left | discriminate].
  - destruct (Hout Example.html) as [_ ->]; [|reflexivity].
    apply Hnot; [by right | discriminate].
Defined.
